(** * HFSM: the transition engine of a hierarchical state machine

    A shallow embedding of [hfsm/machine.hpp], [hfsm/detail/utility.hpp],
    [hfsm/detail/array.hpp] and [hfsm/detail/machine_orthogonal.hpp].

    Conventions.  An [unsigned] is a [Z] in [0, 2^32) and every arithmetic
    result is reduced with [wrap32]; an [Index] ([unsigned char]) is a [Z] in
    [0, 256) and a store into one goes through [toIndex].  A region object
    owns its [Fork] record (member [_fork]) and its sub-regions (members
    [initial], [remaining]), so a machine is a tree of regions with the fork
    records inside it.  The bodies of the [deep*]/[wide*] methods and of the
    root's [update]/[processTransitions] live in [.inl] files; definitions
    for them say so in their documentation. *)

From Stdlib Require Import String QArith ZArith Bool Lia List.
Import ListNotations.

Local Open Scope Z_scope.

(** ** Machine integers *)

Definition wrap32 (z : Z) : Z := z mod 2 ^ 32.

(** [std::numeric_limits<unsigned char>::max()]. *)
Definition Index_max : Z := 255.

(** [static_cast<Index>(z)]. *)
Definition toIndex (z : Z) : Z := z mod 256.

(** ** [hfsm/detail/utility.hpp] *)

Module detail.

(** [Min<t1, t2>::Value]. *)
Definition Min (t1 t2 : Z) : Z := if t1 <? t2 then t1 else t2.

(** [Max<t1, t2>::Value]. *)
Definition Max (t1 t2 : Z) : Z := if t1 >? t2 then t1 else t2.

(** [PowerOf2<t>::Value = !(t & (t - 1))], on [unsigned]. *)
Definition PowerOf2 (t : Z) : bool := Z.land t (wrap32 (t - 1)) =? 0.

(** [BitCount<t>::Value]: the first [k] in [0..31] with [t >> k == 0],
    and 32 when there is none. *)
Fixpoint BitCount_from (fuel : nat) (k : Z) (t : Z) : Z :=
  match fuel with
  | O => k
  | S fuel' => if Z.shiftr t k =? 0 then k else BitCount_from fuel' (k + 1) t
  end.

Definition BitCount (t : Z) : Z := BitCount_from 32 0 t.

(** [NextPowerOf2<t>::Value]. *)
Definition NextPowerOf2 (t : Z) : Z :=
  if PowerOf2 t then t else wrap32 (Z.shiftl 1 (BitCount t)).

End detail.

(** ** [M<TContext, TMaxSubstitutions>]: utility types *)

(** A state type, as [TypeInfo::get<T>()] identifies it. *)
Definition TypeInfo : Type := nat.

(** [enum : Index { INVALID_INDEX = std::numeric_limits<Index>::max() }]. *)
Definition INVALID_INDEX : Z := Index_max.

(** [template <typename TContext, unsigned TMaxSubstitutions = 4> class M]. *)
Definition TMaxSubstitutions_default : nat := 4.

(** [struct Parent]. *)
Record Parent : Type := mkParent {
  fork  : Z;
  prong : Z
}.

Definition Parent_default : Parent := mkParent INVALID_INDEX INVALID_INDEX.

(** [Parent::operator bool]. *)
Definition Parent_bool (p : Parent) : bool :=
  negb (fork p =? INVALID_INDEX) && negb (prong p =? INVALID_INDEX).

(** [struct Fork]; the constructor [Fork(index, type)] sets [self] and leaves
    the three prong fields at their initialiser [INVALID_INDEX]. *)
Record Fork : Type := mkFork {
  self      : Z;
  active    : Z;
  resumable : Z;
  requested : Z
}.

Definition Fork_ctor (index : Z) : Fork :=
  mkFork index INVALID_INDEX INVALID_INDEX INVALID_INDEX.

Definition set_active (v : Z) (f : Fork) : Fork :=
  mkFork (self f) v (resumable f) (requested f).
Definition set_resumable (v : Z) (f : Fork) : Fork :=
  mkFork (self f) (active f) v (requested f).
Definition set_requested (v : Z) (f : Fork) : Fork :=
  mkFork (self f) (active f) (resumable f) v.

(** [struct Transition] and its [enum Type]. *)
Module Transition.
Inductive Type_ : Type := Remain | Restart | Resume | Schedule.

Record t : Type := mk {
  type      : Type_;
  stateType : TypeInfo
}.
End Transition.

Abbreviation Transition := Transition.t.

(** [LoggerInterface::Method]. *)
Module LoggerInterface.
Inductive Method : Type :=
| Substitute | Enter | Update | Transition | React | Leave.

Definition Method_eqb (a b : Method) : bool :=
  match a, b with
  | Substitute, Substitute | Enter, Enter | Update, Update
  | Transition, Transition | React, React | Leave, Leave => true
  | _, _ => false
  end.

(** [methodName]. *)
Definition methodName (method : Method) : string :=
  match method with
  | Substitute => "substitute"%string
  | Enter      => "enter"%string
  | Update     => "update"%string
  | Transition => "transition"%string
  | React      => "react"%string
  | Leave      => "leave"%string
  end.
End LoggerInterface.

Abbreviation Method := LoggerInterface.Method.

(** ** The region tree

    [_S<T>] is a leaf, [_C<TH, TS...>] a composite and [_O<TH, TS...>] an
    orthogonal region.  A region holds [_fork], [_state] and [_subStates];
    [Sub<TN, TI>] holds [initial] and [Sub<TN, TI, TR...>] holds [initial]
    and [remaining]. *)

Inductive Region : Type :=
| _S (Head : TypeInfo)
| _C (_fork : Fork) (_state : TypeInfo) (_subStates : Sub)
| _O (_fork : Fork) (_state : TypeInfo) (_subStates : Sub)
with Sub : Type :=
| Sub1 (initial : Region)
| SubN (initial : Region) (remaining : Sub).

Scheme Region_Sub_ind := Induction for Region Sort Prop
  with Sub_Region_ind := Induction for Sub Sort Prop.
Combined Scheme Region_mutind from Region_Sub_ind, Sub_Region_ind.

(** The head state of a region. *)
Definition head (r : Region) : TypeInfo :=
  match r with
  | _S h => h
  | _C _ h _ => h
  | _O _ h _ => h
  end.

(** *** Build-time sizes *)

(** Modelled from the spec: [_S<T>::StateCount] and [_S<T>::ForkCount] are
    declared in [machine_state.hpp], which is not among the sources; a leaf
    wraps a single user state and has no fork record. *)
Definition S_StateCount : Z := 1.
Definition S_ForkCount : Z := 0.

(** Modelled from the spec: the enumerators of [_C] are declared in
    [machine_composite.hpp], which is not among the sources; a composite has
    one head state plus its children, and one fork record (the spec's
    [ForkCount] is the number of composite regions plus the number of
    orthogonal regions).  They read as those of [_O] below. *)
Definition C_StateCount (SubStates_StateCount : Z) : Z :=
  wrap32 (S_StateCount + SubStates_StateCount).
Definition C_ForkCount (SubStates_ForkCount : Z) : Z :=
  wrap32 (SubStates_ForkCount + 1).

(** [_O::StateCount = State::StateCount + SubStates::StateCount] and
    [_O::ForkCount = SubStates::ForkCount + 1]. *)
Definition O_StateCount (SubStates_StateCount : Z) : Z :=
  wrap32 (S_StateCount + SubStates_StateCount).
Definition O_ForkCount (SubStates_ForkCount : Z) : Z :=
  wrap32 (SubStates_ForkCount + 1).

(** [StateCount] of a region, and of [Sub<TN, TI, TR...>]
    ([Initial::StateCount + Remaining::StateCount]) and [Sub<TN, TI>]. *)
Fixpoint StateCount (r : Region) : Z :=
  match r with
  | _S _ => S_StateCount
  | _C _ _ subs => C_StateCount (Sub_StateCount subs)
  | _O _ _ subs => O_StateCount (Sub_StateCount subs)
  end
with Sub_StateCount (s : Sub) : Z :=
  match s with
  | Sub1 i => StateCount i
  | SubN i r => wrap32 (StateCount i + Sub_StateCount r)
  end.

Fixpoint ForkCount (r : Region) : Z :=
  match r with
  | _S _ => S_ForkCount
  | _C _ _ subs => C_ForkCount (Sub_ForkCount subs)
  | _O _ _ subs => O_ForkCount (Sub_ForkCount subs)
  end
with Sub_ForkCount (s : Sub) : Z :=
  match s with
  | Sub1 i => ForkCount i
  | SubN i r => wrap32 (ForkCount i + Sub_ForkCount r)
  end.

(** [Width = sizeof...(TS)]. *)
Fixpoint Sub_Width (s : Sub) : Z :=
  match s with
  | Sub1 _ => 1
  | SubN _ r => 1 + Sub_Width r
  end.

(** The regions of a tree, counted without wrap-around. *)
Fixpoint states (r : Region) : nat :=
  match r with
  | _S _ => 1
  | _C _ _ subs => S (Sub_states subs)
  | _O _ _ subs => S (Sub_states subs)
  end
with Sub_states (s : Sub) : nat :=
  match s with
  | Sub1 i => states i
  | SubN i r => (states i + Sub_states r)%nat
  end.

Fixpoint composites (r : Region) : nat :=
  match r with
  | _S _ => 0
  | _C _ _ subs => S (Sub_composites subs)
  | _O _ _ subs => Sub_composites subs
  end
with Sub_composites (s : Sub) : nat :=
  match s with
  | Sub1 i => composites i
  | SubN i r => (composites i + Sub_composites r)%nat
  end.

Fixpoint orthogonals (r : Region) : nat :=
  match r with
  | _S _ => 0
  | _C _ _ subs => Sub_orthogonals subs
  | _O _ _ subs => S (Sub_orthogonals subs)
  end
with Sub_orthogonals (s : Sub) : nat :=
  match s with
  | Sub1 i => orthogonals i
  | SubN i r => (orthogonals i + Sub_orthogonals r)%nat
  end.

(** ** The root [_R<TApex>]: build-time part *)

Module R_static.

(** The message of the [static_assert] of [_R]. *)
Definition too_many_states : string :=
  "Too many states in the hierarchy. Change 'Index' type."%string.

(** [static_assert(StateCount < std::numeric_limits<Index>::max(), ...)]:
    [inl tt] when the instantiation compiles, [inr message] when the
    assertion rejects it. *)
Definition static_assert_StateCount (Apex : Region) : unit + string :=
  if StateCount Apex <? Index_max then inl tt else inr too_many_states.

(** The literal [1.3] as the binary64 value the compiler reads. *)
Definition literal_1_3 : Q := 5854679515581645 # 4503599627370496.

(** [(unsigned) x] for a non-negative floating value: truncation. *)
Definition cast_unsigned (x : Q) : Z := wrap32 (Z.quot (Qnum x) (Z.pos (Qden x))).

(** [StateCapacity = (unsigned) 1.3 * Apex::StateCount]: the cast binds
    tighter than the product. *)
Definition StateCapacity (Apex : Region) : Z :=
  wrap32 (cast_unsigned literal_1_3 * StateCount Apex).

(** The other reading, [(unsigned) (1.3 * Apex::StateCount)], for
    comparison. *)
Definition StateCapacity_scaled (Apex : Region) : Z :=
  cast_unsigned (literal_1_3 * inject_Z (StateCount Apex)).

(** [using TransitionQueueStorage = Array<Transition, ForkCount>]. *)
Definition TransitionQueueStorage_CAPACITY (Apex : Region) : Z := ForkCount Apex.

End R_static.

(** A root with [n] leaf states [first .. first + n - 1] below one composite. *)
Fixpoint leaves (n : nat) (first : TypeInfo) : Sub :=
  match n with
  | O => Sub1 (_S first)
  | S n' => SubN (_S first) (leaves n' (S first))
  end.

Definition peers (n : nat) : Region := _C (Fork_ctor 0) 0%nat (leaves (n - 1) 1%nat).


(** The same tree with every fork record rewritten by [g]. *)
Fixpoint mapForks (g : Fork -> Fork) (r : Region) : Region :=
  match r with
  | _S h => _S h
  | _C f h subs => _C (g f) h (Sub_mapForks g subs)
  | _O f h subs => _O (g f) h (Sub_mapForks g subs)
  end
with Sub_mapForks (g : Fork -> Fork) (s : Sub) : Sub :=
  match s with
  | Sub1 i => Sub1 (mapForks g i)
  | SubN i r => SubN (mapForks g i) (Sub_mapForks g r)
  end.

(** ** Bounded storage: [ArrayView<T>] and [Array<T, TCapacity>] *)

(** Modelled from the spec: [ArrayView<T>] is declared in [array_view.hpp],
    which is not among the sources.  It is a bounded buffer: a capacity fixed
    at construction and the items appended so far, in order. *)
Record ArrayView (T : Type) : Type := mkArrayView {
  _capacity : Z;
  _items    : list T
}.

Arguments mkArrayView {T} _ _.
Arguments _capacity {T} _.
Arguments _items {T} _.

Module View.
Section View.
Context {T : Type}.

(** [count()]. *)
Definition count (v : ArrayView T) : Z := Z.of_nat (length (_items v)).

(** Modelled from the spec: [operator <<] is declared in [array_view.hpp],
    which is not among the sources; it appends at the end (spec 3, request
    queue).  The items live in the [Item _storage[CAPACITY]] of
    [Array<T, CAPACITY>] ([array.hpp]), which the view is constructed over:
    with [count = CAPACITY] there is no slot for one more item, and what the
    operator does then is nowhere in the sources: the model defines no
    result there, neither a rejection nor a success. *)
Definition append (v : ArrayView T) (x : T) : option (ArrayView T) :=
  if count v <? _capacity v
  then Some (mkArrayView (_capacity v) (_items v ++ [x]))
  else None.

(** [clear()]. *)
Definition clear (v : ArrayView T) : ArrayView T :=
  mkArrayView (_capacity v) [].

(** Several appends, first to last. *)
Fixpoint append_all (v : ArrayView T) (xs : list T) : option (ArrayView T) :=
  match xs with
  | [] => Some v
  | x :: xs' =>
      match append v x with
      | Some v' => append_all v' xs'
      | None => None
      end
  end.
End View.
End View.

(** [Array<T, TCapacity>::Array() : View(CAPACITY)]. *)
Definition Array_ctor {T : Type} (CAPACITY : Z) : ArrayView T :=
  mkArrayView CAPACITY [].

Abbreviation TransitionQueue := (ArrayView Transition).

(** ** The runtime environment of a machine *)

(** What a logger sink receives: [LoggerInterface] has the one method
    [record(state, stateName, method, methodName)], and [Recorded] is a call
    of it (the two names are those of [state] and [method]).  The interface
    has no way to report anything but a callback. *)
Inductive LogItem : Type :=
| Recorded (state : TypeInfo) (method : Method).

Definition is_method (m : Method) (i : LogItem) : bool :=
  match i with
  | Recorded _ m' => LoggerInterface.Method_eqb m m'
  end.

Section Engine.

(** The context type [TContext] and the type [TEvent] of the events given
    to [react]. *)
Context {TContext TEvent : Type}.

(** [class Bare]: the hooks an injection provides.  Each one takes the
    [Context&] and nothing else. *)
Record Bare : Type := mkBare {
  preSubstitute : TContext -> TContext;
  preEnter      : TContext -> TContext;
  preUpdate     : TContext -> TContext;
  preTransition : TContext -> TContext;
  preReact      : TEvent -> TContext -> TContext;
  postLeave     : TContext -> TContext
}.

(** [Bare]'s own hooks are empty. *)
Definition Bare_default : Bare :=
  mkBare (fun c => c) (fun c => c) (fun c => c) (fun c => c)
         (fun _ c => c) (fun c => c).

(** A user state built on [_B<TInjections...>]: its injections, first to
    last, and its callbacks.  A callback given a [Control&] reads
    [requestCount()] and calls [changeTo]/[resume]/[schedule]; it is the
    function from the count it sees and the context to the requests it
    issues, in order, and the context it leaves. *)
Record UserState : Type := mkUserState {
  injections : list Bare;
  substitute : Z -> TContext -> list Transition * TContext;
  enter      : TContext -> TContext;
  update     : TContext -> TContext;
  transition : Z -> TContext -> list Transition * TContext;
  react      : TEvent -> Z -> TContext -> list Transition * TContext;
  leave      : TContext -> TContext
}.

(** [using Base = _B<Bare>]: every callback of [_B<TInjection>] is empty. *)
Definition Base : UserState :=
  mkUserState [Bare_default]
              (fun _ c => ([], c)) (fun c => c) (fun c => c)
              (fun _ c => ([], c)) (fun _ _ c => ([], c)) (fun c => c).

(** The user's state types. *)
Variable user : TypeInfo -> UserState.

(** The members of [_R] that the region methods receive by reference:
    [_context], [_requests] (through a [Control]) and [_logger] ([None]
    when no sink is attached, else what the sink has received).  [trace]
    is the history of every callback invocation, attached sink or not. *)
Record Env : Type := mkEnv {
  _context  : TContext;
  _requests : TransitionQueue;
  _logger   : option (list LogItem);
  trace     : list LogItem
}.

Definition set_context (c : TContext) (e : Env) : Env :=
  mkEnv c (_requests e) (_logger e) (trace e).
Definition set_requests (q : TransitionQueue) (e : Env) : Env :=
  mkEnv (_context e) q (_logger e) (trace e).

(** One item reaches the history, and the sink when there is one. *)
Definition emit (i : LogItem) (e : Env) : Env :=
  mkEnv (_context e) (_requests e)
        (option_map (fun l => l ++ [i]) (_logger e))
        (trace e ++ [i]).

(** *** A state and error monad over [Env] *)

Definition M (A : Type) : Type := Env -> option (A * Env).

Definition ret {A} (a : A) : M A := fun e => Some (a, e).
Definition fail {A} : M A := fun _ => None.
Definition bind {A B} (m : M A) (k : A -> M B) : M B :=
  fun e => match m e with
           | Some (a, e') => k a e'
           | None => None
           end.
Definition modify (f : Env -> Env) : M unit := fun e => Some (tt, f e).
Definition gets {A} (f : Env -> A) : M A := fun e => Some (f e, e).
Definition assert (b : bool) : M unit := if b then ret tt else fail.

Notation "x <- m ;; k" := (bind m (fun x => k))
  (at level 61, m at next level, right associativity).
Notation "m ;; k" := (bind m (fun _ => k))
  (at level 61, right associativity).

(** [Control::changeTo/resume/schedule] called in turn by a callback:
    each is one [_requests << Transition(...)]. *)
Definition issue (rs : list Transition) : M unit :=
  fun e => match View.append_all (_requests e) rs with
           | Some q => Some (tt, set_requests q e)
           | None => None
           end.

(** *** The injection chain [_B<TInjection, TRest...>] *)

(** Modelled from the spec: the bodies of [widePre*]/[widePostLeave] are in
    [machine.inl], which is not among the sources; each injection's hook
    runs in turn on the context. *)
Definition wideHook (hook : Bare -> TContext -> TContext)
           (bs : list Bare) (c : TContext) : TContext :=
  fold_left (fun c b => hook b c) bs c.

Definition widePreSubstitute := wideHook preSubstitute.
Definition widePreEnter      := wideHook preEnter.
Definition widePreUpdate     := wideHook preUpdate.
Definition widePreTransition := wideHook preTransition.
Definition widePreReact (ev : TEvent) := wideHook (fun b => preReact b ev).
Definition widePostLeave     := wideHook postLeave.

(** A hook chain run on the machine: it is given [_context] alone. *)
Definition runHooks (chain : list Bare -> TContext -> TContext)
           (T : TypeInfo) : M unit :=
  modify (fun e => set_context (chain (injections (user T)) (_context e)) e).

(** A callback without a [Control&]. *)
Definition runPlain (cb : UserState -> TContext -> TContext)
           (T : TypeInfo) : M unit :=
  modify (fun e => set_context (cb (user T) (_context e)) e).

(** A callback with a [Control&]. *)
Definition runControlled (cb : UserState -> Z -> TContext -> list Transition * TContext)
           (T : TypeInfo) : M unit :=
  fun e =>
    let '(rs, c) := cb (user T) (View.count (_requests e)) (_context e) in
    issue rs (set_context c e).

(** *** The leaf [_S<T>] *)

(** Modelled from the spec: the methods of [_S] are in
    [machine_state_methods.inl], which is not among the sources.  Each
    records the call with the logger, then runs the pre-hooks, the state's
    own callback and the post-hooks (spec 4.3.1, 4.6 and 6). *)
Definition S_deepSubstitute (T : TypeInfo) : M unit :=
  modify (emit (Recorded T LoggerInterface.Substitute)) ;;
  runHooks widePreSubstitute T ;;
  runControlled substitute T.

Definition S_deepEnter (T : TypeInfo) : M unit :=
  modify (emit (Recorded T LoggerInterface.Enter)) ;;
  runHooks widePreEnter T ;;
  runPlain enter T.

Definition S_deepUpdate (T : TypeInfo) : M unit :=
  modify (emit (Recorded T LoggerInterface.Update)) ;;
  runHooks widePreUpdate T ;;
  runPlain update T.

Definition S_deepTransition (T : TypeInfo) : M unit :=
  modify (emit (Recorded T LoggerInterface.Transition)) ;;
  runHooks widePreTransition T ;;
  runControlled transition T.

Definition S_deepReact (ev : TEvent) (T : TypeInfo) : M unit :=
  modify (emit (Recorded T LoggerInterface.React)) ;;
  runHooks (widePreReact ev) T ;;
  runControlled (fun u => react u ev) T.

Definition S_deepLeave (T : TypeInfo) : M unit :=
  modify (emit (Recorded T LoggerInterface.Leave)) ;;
  runPlain leave T ;;
  runHooks widePostLeave T.

(** *** Walking the sub-regions [Sub<TN, ...>] *)

Section Wide.
Variable deep : Region -> M Region.

(** Every sub-region, in declaration order. *)
Fixpoint wideAll (s : Sub) : M Sub :=
  match s with
  | Sub1 i => i' <- deep i ;; ret (Sub1 i')
  | SubN i r => i' <- deep i ;; r' <- wideAll r ;; ret (SubN i' r')
  end.

(** Every sub-region, last to first. *)
Fixpoint wideAllReverse (s : Sub) : M Sub :=
  match s with
  | Sub1 i => i' <- deep i ;; ret (Sub1 i')
  | SubN i r => r' <- wideAllReverse r ;; i' <- deep i ;; ret (SubN i' r')
  end.

(** The sub-region whose [ProngIndex] is [prong], if any; [TN] is the
    [ProngIndex] of the first one. *)
Fixpoint wideAt (prong TN : Z) (s : Sub) : M Sub :=
  match s with
  | Sub1 i =>
      if prong =? TN then i' <- deep i ;; ret (Sub1 i') else ret s
  | SubN i r =>
      if prong =? TN then i' <- deep i ;; ret (SubN i' r)
      else r' <- wideAt prong (TN + 1) r ;; ret (SubN i r')
  end.
End Wide.

(** The same walks for the request methods, which touch fork records only. *)
Section WidePure.
Variable deep : Region -> Region.

Fixpoint wideMapAll (s : Sub) : Sub :=
  match s with
  | Sub1 i => Sub1 (deep i)
  | SubN i r => SubN (deep i) (wideMapAll r)
  end.

Fixpoint wideMapAt (prong TN : Z) (s : Sub) : Sub :=
  match s with
  | Sub1 i => if prong =? TN then Sub1 (deep i) else s
  | SubN i r =>
      if prong =? TN then SubN (deep i) r
      else SubN i (wideMapAt prong (TN + 1) r)
  end.
End WidePure.

(** *** Where a state type sits in the tree *)

Fixpoint contains (T : TypeInfo) (r : Region) : bool :=
  match r with
  | _S h => Nat.eqb h T
  | _C _ h subs => Nat.eqb h T || Sub_contains T subs
  | _O _ h subs => Nat.eqb h T || Sub_contains T subs
  end
with Sub_contains (T : TypeInfo) (s : Sub) : bool :=
  match s with
  | Sub1 i => contains T i
  | SubN i r => contains T i || Sub_contains T r
  end.

(** The [ProngIndex] of the first sub-region that holds [T]. *)
Fixpoint prongOf (T : TypeInfo) (TN : Z) (s : Sub) : option Z :=
  match s with
  | Sub1 i => if contains T i then Some TN else None
  | SubN i r => if contains T i then Some TN else prongOf T (TN + 1) r
  end.

(** *** The region methods

    Modelled from the spec: the bodies of the [deep*] methods of [_C] and
    [_O] are in [machine_composite_methods.inl] and
    [machine_orthogonal_methods.inl], which are not among the sources (the
    declarations of [_O] are).  Each definition follows spec 4.3, 4.3.2 and
    4.3.3; [wideAt] and [wideAll] stand for the [wide*] method of the same
    name with and without a prong. *)

(** [deepEnterInitial]: a composite enters its head, then prong 0, and
    sets [active = 0]; an orthogonal region enters its head, then every
    child. *)
Fixpoint deepEnterInitial (r : Region) : M Region :=
  match r with
  | _S h => S_deepEnter h ;; ret r
  | _C f h subs =>
      S_deepEnter h ;;
      subs' <- wideAt deepEnterInitial 0 0 subs ;;
      ret (_C (set_active 0 f) h subs')
  | _O f h subs =>
      S_deepEnter h ;;
      subs' <- wideAll deepEnterInitial subs ;;
      ret (_O f h subs')
  end.

(** [deepEnter]: a composite reads [requested], asserts it is in range,
    enters its head, then the requested prong, sets [active = requested]
    and clears [requested]; an orthogonal region enters its head, then
    every child. *)
Fixpoint deepEnter (r : Region) : M Region :=
  match r with
  | _S h => S_deepEnter h ;; ret r
  | _C f h subs =>
      assert ((0 <=? requested f) && (requested f <? Sub_Width subs)) ;;
      S_deepEnter h ;;
      subs' <- wideAt deepEnter (requested f) 0 subs ;;
      ret (_C (set_requested INVALID_INDEX (set_active (requested f) f)) h subs')
  | _O f h subs =>
      S_deepEnter h ;;
      subs' <- wideAll deepEnter subs ;;
      ret (_O f h subs')
  end.

(** [deepUpdate]: [update] on the active states, depth first. *)
Fixpoint deepUpdate (r : Region) : M Region :=
  match r with
  | _S h => S_deepUpdate h ;; ret r
  | _C f h subs =>
      S_deepUpdate h ;;
      subs' <- wideAt deepUpdate (active f) 0 subs ;;
      ret (_C f h subs')
  | _O f h subs =>
      S_deepUpdate h ;;
      subs' <- wideAll deepUpdate subs ;;
      ret (_O f h subs')
  end.

(** [transition] on the active states, depth first: the second half of
    [deepUpdateAndTransition]. *)
Fixpoint deepTransition (r : Region) : M Region :=
  match r with
  | _S h => S_deepTransition h ;; ret r
  | _C f h subs =>
      S_deepTransition h ;;
      subs' <- wideAt deepTransition (active f) 0 subs ;;
      ret (_C f h subs')
  | _O f h subs =>
      S_deepTransition h ;;
      subs' <- wideAll deepTransition subs ;;
      ret (_O f h subs')
  end.

(** [deepUpdateAndTransition]: [update] on all currently active states in
    depth-first order, then [transition] on the same set; the result tells
    whether a request was appended during [transition]. *)
Definition deepUpdateAndTransition (r : Region) : M (Region * bool) :=
  r1 <- deepUpdate r ;;
  before <- gets (fun e => View.count (_requests e)) ;;
  r2 <- deepTransition r1 ;;
  after <- gets (fun e => View.count (_requests e)) ;;
  ret (r2, before <? after).

(** [deepReact]: the event goes to every active state. *)
Fixpoint deepReact (ev : TEvent) (r : Region) : M Region :=
  match r with
  | _S h => S_deepReact ev h ;; ret r
  | _C f h subs =>
      S_deepReact ev h ;;
      subs' <- wideAt (deepReact ev) (active f) 0 subs ;;
      ret (_C f h subs')
  | _O f h subs =>
      S_deepReact ev h ;;
      subs' <- wideAll (deepReact ev) subs ;;
      ret (_O f h subs')
  end.

(** [deepLeave]: a composite leaves the active prong, then its head, sets
    [resumable = active] and clears [active]; an orthogonal region leaves
    all children in reverse order, then its head. *)
Fixpoint deepLeave (r : Region) : M Region :=
  match r with
  | _S h => S_deepLeave h ;; ret r
  | _C f h subs =>
      subs' <- wideAt deepLeave (active f) 0 subs ;;
      S_deepLeave h ;;
      ret (_C (set_active INVALID_INDEX (set_resumable (active f) f)) h subs')
  | _O f h subs =>
      subs' <- wideAllReverse deepLeave subs ;;
      S_deepLeave h ;;
      ret (_O f h subs')
  end.

(** [deepSubstitute]: the guards of the newly requested subtree: the head's
    [substitute], then the requested prong of a composite, every child of
    an orthogonal region. *)
Fixpoint deepSubstitute (r : Region) : M Region :=
  match r with
  | _S h => S_deepSubstitute h ;; ret r
  | _C f h subs =>
      S_deepSubstitute h ;;
      subs' <- wideAt deepSubstitute (requested f) 0 subs ;;
      ret (_C f h subs')
  | _O f h subs =>
      S_deepSubstitute h ;;
      subs' <- wideAll deepSubstitute subs ;;
      ret (_O f h subs')
  end.

(** [deepForwardSubstitute]: walks the forks that have a [requested] prong
    and runs the guards of the requested prong, whether that prong is the
    active one or not (spec 4.4, step 3; in the spec's scenario 5 the guard
    of the active state [A] runs when the guard of [B] asks for [A]).  A
    leaf forwards nothing. *)
Fixpoint deepForwardSubstitute (r : Region) : M Region :=
  match r with
  | _S h => ret r
  | _C f h subs =>
      if requested f =? INVALID_INDEX then ret r
      else
        subs' <- wideAt deepSubstitute (requested f) 0 subs ;;
        ret (_C f h subs')
  | _O f h subs =>
      subs' <- wideAll deepForwardSubstitute subs ;;
      ret (_O f h subs')
  end.

(** [deepRequestRestart]: a composite sets [requested = 0] and its prong 0
    does the same below; an orthogonal region passes it to every child. *)
Fixpoint deepRequestRestart (r : Region) : Region :=
  match r with
  | _S h => r
  | _C f h subs =>
      _C (set_requested 0 f) h (wideMapAt deepRequestRestart 0 0 subs)
  | _O f h subs => _O f h (wideMapAll deepRequestRestart subs)
  end.

(** The prong a composite resumes: [resumable], or 0 when there is none. *)
Definition resumed (f : Fork) : Z :=
  if resumable f =? INVALID_INDEX then 0 else resumable f.

(** [deepRequestResume]: a composite sets [requested] to its [resumable]
    prong (0 when none) and that prong does the same below. *)
Fixpoint deepRequestResume (r : Region) : Region :=
  match r with
  | _S h => r
  | _C f h subs =>
      _C (set_requested (resumed f) f) h
         (wideMapAt deepRequestResume (resumed f) 0 subs)
  | _O f h subs => _O f h (wideMapAll deepRequestResume subs)
  end.

(** [deepRequestRemain]: nothing at apply time. *)
Definition deepRequestRemain (r : Region) : Region := r.

(** What a composite on the path to the target writes in its fork, the
    target being below prong [p]: [requested = p] for Restart and Resume,
    [resumable = p] and no [requested] for Schedule. *)
Definition onPath (kind : Transition.Type_) (p : Z) (f : Fork) : Fork :=
  match kind with
  | Transition.Remain => f
  | Transition.Restart | Transition.Resume => set_requested (toIndex p) f
  | Transition.Schedule => set_resumable (toIndex p) f
  end.

(** What the target region itself does. *)
Definition onTarget (kind : Transition.Type_) (r : Region) : Region :=
  match kind with
  | Transition.Remain => deepRequestRemain r
  | Transition.Restart => deepRequestRestart r
  | Transition.Resume => deepRequestResume r
  | Transition.Schedule => r
  end.

(** A request for the state type [T] handled along the path from this
    region to [T].  An orthogonal region forwards it into the single child
    that holds the target; the siblings are untouched.  A region that does
    not hold the target is unchanged. *)
Fixpoint deepRequest (kind : Transition.Type_) (T : TypeInfo) (r : Region) : Region :=
  match r with
  | _S h => r
  | _C f h subs =>
      if Nat.eqb h T then onTarget kind r
      else match prongOf T 0 subs with
           | Some p => _C (onPath kind p f) h (wideMapAt (deepRequest kind T) p 0 subs)
           | None => r
           end
  | _O f h subs =>
      if Nat.eqb h T then onTarget kind r
      else match prongOf T 0 subs with
           | Some p => _O f h (wideMapAt (deepRequest kind T) p 0 subs)
           | None => r
           end
  end.

(** [deepChangeToRequested]: a composite with [requested = active] goes
    down into the active prong, which applies its own request; otherwise
    it leaves the active prong, records it in [resumable], sets
    [active = requested] and enters it.  [requested] is cleared on apply.
    With no request the fork is unchanged and the walk goes on in the
    active prong.  An orthogonal region fans out to all children; a leaf
    does nothing. *)
Fixpoint deepChangeToRequested (r : Region) : M Region :=
  match r with
  | _S h => ret r
  | _C f h subs =>
      if requested f =? INVALID_INDEX then
        subs' <- wideAt deepChangeToRequested (active f) 0 subs ;;
        ret (_C f h subs')
      else if requested f =? active f then
        subs' <- wideAt deepChangeToRequested (active f) 0 subs ;;
        ret (_C (set_requested INVALID_INDEX f) h subs')
      else
        subs1 <- wideAt deepLeave (active f) 0 subs ;;
        subs2 <- wideAt deepEnter (requested f) 0 subs1 ;;
        ret (_C (set_requested INVALID_INDEX
                   (set_active (requested f)
                      (set_resumable (active f) f))) h subs2)
  | _O f h subs =>
      subs' <- wideAll deepChangeToRequested subs ;;
      ret (_O f h subs')
  end.

(** ** The root [_R<TApex>]: runtime part *)

(** [enum : unsigned { MaxSubstitutions = TMaxSubstitutions }]. *)
Variable MaxSubstitutions : nat.

(** The members of [_R]: those in [Env], and [_apex]. *)
Record _R : Type := mkR {
  env   : Env;
  _apex : Region
}.

(** [_R::changeTo<T>], [_R::resume<T>] and [_R::schedule<T>]:
    [_requests << Transition(type, TypeInfo::get<T>())]. *)
Definition request (type : Transition.Type_) (T : TypeInfo) (m : _R) : option _R :=
  match View.append (_requests (env m)) (Transition.mk type T) with
  | Some q => Some (mkR (set_requests q (env m)) (_apex m))
  | None => None
  end.

Definition changeTo (T : TypeInfo) : _R -> option _R := request Transition.Restart T.
Definition resume   (T : TypeInfo) : _R -> option _R := request Transition.Resume T.
Definition schedule (T : TypeInfo) : _R -> option _R := request Transition.Schedule T.

(** [class Control]: it holds a reference to the request queue, and its
    [changeTo<T>], [resume<T>] and [schedule<T>] append to it. *)
Definition Control_request (type : Transition.Type_) (T : TypeInfo)
           (requests : TransitionQueue) : option TransitionQueue :=
  View.append requests (Transition.mk type T).

Definition Control_changeTo (T : TypeInfo) := Control_request Transition.Restart T.
Definition Control_resume   (T : TypeInfo) := Control_request Transition.Resume T.
Definition Control_schedule (T : TypeInfo) := Control_request Transition.Schedule T.

(** [Control::requestCount()]. *)
Definition Control_requestCount (requests : TransitionQueue) : Z :=
  View.count requests.

(** [attachLogger(logger)]: [_logger = logger]. *)
Definition attachLogger (logger : option (list LogItem)) (m : _R) : _R :=
  mkR (mkEnv (_context (env m)) (_requests (env m)) logger (trace (env m)))
      (_apex m).

(** *** Resolution *)

(** How a resolution ends: the requested configuration was applied, or the
    substitution budget ran out with requests still pending. *)
Inductive Resolution : Type := Applied | Overflowed.

(** Modelled from the spec: [id(request)] looks the state type up in the
    registry, and [requestImmediate]/[requestScheduled] are in
    [machine_methods.inl], which is not among the sources.  A request for a
    state type that is not in the tree fails hard (spec 4.1); any other is
    handled from the root along the path to its target (spec 4.4, step 2). *)
Definition handleRequest (request : Transition) (apex : Region) : option Region :=
  if contains (Transition.stateType request) apex
  then Some (deepRequest (Transition.type request) (Transition.stateType request) apex)
  else None.

(** The queued requests, front to back. *)
Fixpoint handleRequests (pending : list Transition) (apex : Region) : option Region :=
  match pending with
  | [] => Some apex
  | request :: rest =>
      match handleRequest request apex with
      | Some apex' => handleRequests rest apex'
      | None => None
      end
  end.

(** Modelled from the spec: [processTransitions] is in
    [machine_methods.inl], which is not among the sources.  Spec 4.4: (1)
    with an empty queue the loop ends and (5) [deepChangeToRequested] runs
    from the root; otherwise, when the substitution counter would exceed
    [MaxSubstitutions], resolution halts: the pending requests are
    discarded and the request set of the tick is abandoned, the tree being
    the one resolution started from, [pre] (the logger has no method for
    the report, and the tick's result carries it); otherwise (2) the queued
    requests are consumed in FIFO order, (3) [deepForwardSubstitute] runs
    from the root and its guards may append new requests, (4) the counter
    is incremented and the loop repeats with the queue cleared of the
    requests just consumed.  The consumed requests have left the queue
    when the guards run: in the spec's scenario 5 the queue holds one
    request ([ForkCount = 1]) and a guard appends another.  [budget] is
    [MaxSubstitutions] less the counter; the result carries the final
    counter. *)
Fixpoint substitutionLoop (budget : nat) (counter : nat) (pre apex : Region)
  : M (Region * nat * Resolution) :=
  fun e =>
    match _items (_requests e) with
    | [] =>
        (apex' <- deepChangeToRequested apex ;; ret (apex', counter, Applied)) e
    | pending =>
        match budget with
        | O =>
            Some ((pre, counter, Overflowed),
                  set_requests (View.clear (_requests e)) e)
        | S budget' =>
            match handleRequests pending apex with
            | None => None
            | Some apex1 =>
                match deepForwardSubstitute apex1
                        (set_requests (View.clear (_requests e)) e) with
                | None => None
                | Some (apex2, e2) =>
                    substitutionLoop budget' (S counter) pre apex2 e2
                end
            end
        end
    end.

Definition processTransitions (apex : Region) : M (Region * nat * Resolution) :=
  substitutionLoop MaxSubstitutions 0 apex apex.

(** Modelled from the spec: [_R::update] is in [machine_methods.inl], which
    is not among the sources.  One tick: the update and transition pass,
    then resolution (spec 4.5). *)
Definition R_update (m : _R) : option (_R * Resolution) :=
  match (r <- deepUpdateAndTransition (_apex m) ;; processTransitions (fst r)) (env m) with
  | Some ((apex, _, res), e) => Some (mkR e apex, res)
  | None => None
  end.

(** Modelled from the spec: [_R::react] is in [machine_methods.inl], which
    is not among the sources.  The event is delivered to the active states
    and the requests are resolved with the same protocol (spec 4.4). *)
Definition R_react (ev : TEvent) (m : _R) : option (_R * Resolution) :=
  match (r <- deepReact ev (_apex m) ;; processTransitions r) (env m) with
  | Some ((apex, _, res), e) => Some (mkR e apex, res)
  | None => None
  end.

(** Modelled from the spec: the constructor [_R(context, logger)] is in
    [machine_methods.inl], which is not among the sources.  The storages
    are sized from the tree ([TransitionQueueStorage] holds [ForkCount]
    requests), then the root invokes [deepEnterInitial] and runs one
    substitution loop (spec 4.5). *)
Definition R_ctor (Apex : Region) (context : TContext)
           (logger : option (list LogItem)) : option _R :=
  let e := mkEnv context (Array_ctor (R_static.TransitionQueueStorage_CAPACITY Apex))
                 logger [] in
  match (r <- deepEnterInitial Apex ;; processTransitions r) e with
  | Some ((apex, _, _), e') => Some (mkR e' apex)
  | None => None
  end.

(** Modelled from the spec: the destructor is in [machine_methods.inl];
    the root invokes [deepLeave] from the top (spec 4.5). *)
Definition R_dtor (m : _R) : option _R :=
  match deepLeave (_apex m) (env m) with
  | Some (apex, e) => Some (mkR e apex)
  | None => None
  end.

(** *** Queries *)

(** Modelled from the spec: [isActive<T>] is in [machine_methods.inl],
    which is not among the sources.  It compares [active] at each
    composite between the root and [T] (spec 4.5): [T] is found through
    the active prong of a composite and through every child of an
    orthogonal region. *)
Fixpoint deepIsActive (T : TypeInfo) (r : Region) : bool :=
  match r with
  | _S h => Nat.eqb h T
  | _C f h subs => Nat.eqb h T || wideIsActive T (Some (active f)) 0 subs
  | _O f h subs => Nat.eqb h T || wideIsActive T None 0 subs
  end
with wideIsActive (T : TypeInfo) (prong : option Z) (TN : Z) (s : Sub) : bool :=
  match s with
  | Sub1 i =>
      match prong with
      | Some p => (p =? TN) && deepIsActive T i
      | None => deepIsActive T i
      end
  | SubN i r =>
      match prong with
      | Some p => (p =? TN) && deepIsActive T i
      | None => deepIsActive T i
      end || wideIsActive T prong (TN + 1) r
  end.

Definition isActive (T : TypeInfo) (m : _R) : bool := deepIsActive T (_apex m).

End Engine.

Arguments mkR {TContext} _ _.
Arguments mkEnv {TContext} _ _ _ _.

(** ** Notions used in the statements *)

(** The active configuration of a tree: its shape and the [active] field of
    every fork, the request and history fields blanked. *)
Definition keepActive (f : Fork) : Fork :=
  mkFork (self f) (active f) INVALID_INDEX INVALID_INDEX.

Definition activeConfiguration (r : Region) : Region := mapForks keepActive r.

(** The sub-region with [ProngIndex = p]; [TN] is the index of the first. *)
Fixpoint Sub_nth (p TN : Z) (s : Sub) : option Region :=
  match s with
  | Sub1 i => if p =? TN then Some i else None
  | SubN i r => if p =? TN then Some i else Sub_nth p (TN + 1) r
  end.

Definition subStates (r : Region) : option Sub :=
  match r with
  | _S _ => None
  | _C _ _ subs => Some subs
  | _O _ _ subs => Some subs
  end.

(** The region reached from [r] by a path of prong indices. *)
Fixpoint subRegion (path : list Z) (r : Region) : option Region :=
  match path with
  | [] => Some r
  | p :: rest =>
      match subStates r with
      | Some subs =>
          match Sub_nth p 0 subs with
          | Some c => subRegion rest c
          | None => None
          end
      | None => None
      end
  end.

(** Every composite on the path has [active] equal to the prong the path
    takes; an orthogonal region lets every child through. *)
Fixpoint activePath (path : list Z) (r : Region) : bool :=
  match path with
  | [] => true
  | p :: rest =>
      match r with
      | _S _ => false
      | _C f _ subs =>
          (active f =? p) &&
          match Sub_nth p 0 subs with
          | Some c => activePath rest c
          | None => false
          end
      | _O _ _ subs =>
          match Sub_nth p 0 subs with
          | Some c => activePath rest c
          | None => false
          end
      end
  end.

(** A prong mark of a fork of width [W]: none, or the index of a prong. *)
Definition validMark (W x : Z) : bool :=
  (x =? INVALID_INDEX) || ((0 <=? x) && (x <? W)).

(** The fork records of a region agree with its being active ([on]) or not:
    an active composite has one active prong, a prong of its own, the region
    below that prong is active and the regions below the others are not; a
    composite that is not active has no active prong and nothing below it is
    active; the children of an orthogonal region are active when it is; and
    every [requested] and [resumable] mark is none or a prong of its fork.
    [sel] tells which prongs are active, [TN] is the index of the first. *)
Fixpoint consistent (on : bool) (r : Region) : bool :=
  match r with
  | _S _ => true
  | _C f _ subs =>
      (if on then (0 <=? active f) && (active f <? Sub_Width subs)
       else active f =? INVALID_INDEX)
      && validMark (Sub_Width subs) (requested f)
      && validMark (Sub_Width subs) (resumable f)
      && Sub_consistent (fun k => on && (active f =? k)) 0 subs
  | _O _ _ subs => Sub_consistent (fun _ => on) 0 subs
  end
with Sub_consistent (sel : Z -> bool) (TN : Z) (s : Sub) : bool :=
  match s with
  | Sub1 i => consistent (sel TN) i
  | SubN i r => consistent (sel TN) i && Sub_consistent sel (TN + 1) r
  end.

(** Every sub-region has the property [Q]. *)
Fixpoint Sub_Forall (Q : Region -> Prop) (s : Sub) : Prop :=
  match s with
  | Sub1 i => Q i
  | SubN i r => Q i /\ Sub_Forall Q r
  end.

(** A request handler that keeps the agreement, active or not. *)
Definition keepsConsistent (deep : Region -> Region) (r : Region) : Prop :=
  forall b, consistent b r = true -> consistent b (deep r) = true.

(** The records of the given methods. *)
Definition records (ms : list Method) (i : LogItem) : Prop :=
  exists T m, i = Recorded T m /\ In m ms.

(** How many records of a method a history holds. *)
Definition countMethod (m : Method) (l : list LogItem) : nat :=
  length (filter (is_method m) l).

Definition LogItem_eqb (a b : LogItem) : bool :=
  match a, b with
  | Recorded s m, Recorded s' m' => Nat.eqb s s' && LoggerInterface.Method_eqb m m'
  end.

(** Some [x] in the history comes before some [y]. *)
Fixpoint occursBefore (x y : LogItem) (l : list LogItem) : bool :=
  match l with
  | [] => false
  | z :: l' =>
      (LogItem_eqb z x && existsb (LogItem_eqb y) l') || occursBefore x y l'
  end.

Section Vocabulary.

Context {TContext TEvent : Type}.
Variable user : TypeInfo -> @UserState TContext TEvent.

(** From [e] to [e'] the history grew by items of kind [K], the sink (when
    attached) received the same items, and the request queue kept its
    capacity and stayed within it. *)
Definition Steps (K : LogItem -> Prop) (e e' : @Env TContext) : Prop :=
  (exists added,
      trace e' = trace e ++ added /\ Forall K added /\
      _logger e' = option_map (fun l => l ++ added) (_logger e)) /\
  _capacity (_requests e') = _capacity (_requests e) /\
  (View.count (_requests e) <= _capacity (_requests e) ->
   View.count (_requests e') <= _capacity (_requests e')).

(** The fork record of a region. *)
Definition forkOf (r : Region) : option Fork :=
  match r with
  | _S _ => None
  | _C f _ _ => Some f
  | _O f _ _ => Some f
  end.

(** The composite [r] loses its active prong [p]: it is left, or the apply
    point switches it to another prong. *)
Inductive leavesProng : Region -> Z -> Region -> Prop :=
| leaves_deepLeave f h subs e r' e' :
    deepLeave user (_C f h subs) e = Some (r', e') ->
    leavesProng (_C f h subs) (active f) r'
| leaves_switch f h subs e r' e' :
    deepChangeToRequested user (_C f h subs) e = Some (r', e') ->
    requested f <> INVALID_INDEX ->
    requested f <> active f ->
    leavesProng (_C f h subs) (active f) r'.

(** One operation on the region [r] other than a leave of its active prong
    and other than a Schedule request. *)
Inductive quietStep : Region -> Region -> Prop :=
| quiet_enterInitial r e r' e' :
    deepEnterInitial user r e = Some (r', e') -> quietStep r r'
| quiet_enter r e r' e' :
    deepEnter user r e = Some (r', e') -> quietStep r r'
| quiet_update r e r' e' :
    deepUpdate user r e = Some (r', e') -> quietStep r r'
| quiet_transition r e r' e' :
    deepTransition user r e = Some (r', e') -> quietStep r r'
| quiet_react ev r e r' e' :
    deepReact user ev r e = Some (r', e') -> quietStep r r'
| quiet_substitute r e r' e' :
    deepSubstitute user r e = Some (r', e') -> quietStep r r'
| quiet_forwardSubstitute r e r' e' :
    deepForwardSubstitute user r e = Some (r', e') -> quietStep r r'
| quiet_request kind T r :
    kind <> Transition.Schedule -> quietStep r (deepRequest kind T r)
| quiet_requestRestart r : quietStep r (deepRequestRestart r)
| quiet_requestResume r : quietStep r (deepRequestResume r)
| quiet_stay f h subs e r' e' :
    deepChangeToRequested user (_C f h subs) e = Some (r', e') ->
    requested f = INVALID_INDEX \/ requested f = active f ->
    quietStep (_C f h subs) r'.

(** Any number of them. *)
Inductive quiet : Region -> Region -> Prop :=
| quiet_refl r : quiet r r
| quiet_next r1 r2 r3 : quiet r1 r2 -> quietStep r2 r3 -> quiet r1 r3.

End Vocabulary.

(** What a region method guarantees on the environment, and what its walks
    over the sub-regions guarantee. *)
Definition deepSpec {TContext : Type} (deep : Region -> @M TContext Region)
           (R : @Env TContext -> @Env TContext -> Prop) (r : Region) : Prop :=
  forall e r' e', deep r e = Some (r', e') -> R e e'.

Definition wideSpec {TContext : Type} (deep : Region -> @M TContext Region)
           (R : @Env TContext -> @Env TContext -> Prop) (s : Sub) : Prop :=
  (forall e s' e', wideAll deep s e = Some (s', e') -> R e e') /\
  (forall e s' e', wideAllReverse deep s e = Some (s', e') -> R e e') /\
  (forall p TN e s' e', wideAt deep p TN s e = Some (s', e') -> R e e').

(** A region method that hands the region back as it was. *)
Definition deepSame {TContext : Type} (deep : Region -> @M TContext Region)
           (r : Region) : Prop :=
  forall e r' e', deep r e = Some (r', e') -> r' = r.

Definition wideSame {TContext : Type} (deep : Region -> @M TContext Region)
           (s : Sub) : Prop :=
  (forall e s' e', wideAll deep s e = Some (s', e') -> s' = s) /\
  (forall p TN e s' e', wideAt deep p TN s e = Some (s', e') -> s' = s).

(** A region method that takes a region whose records agree with [b] to one
    whose records agree with [b']. *)
Definition deepTurns {TContext : Type} (deep : Region -> @M TContext Region)
           (b b' : bool) (r : Region) : Prop :=
  forall (e : @Env TContext) r' e',
    deep r e = Some (r', e') -> consistent b r = true -> consistent b' r' = true.

(** From [e] to [e'] the history grew by at most [n] items. *)
Definition Grows {TContext : Type} (n : nat) (e e' : @Env TContext) : Prop :=
  exists added, trace e' = trace e ++ added /\ (length added <= n)%nat.

(** The machine [m] with one more request at the end of its queue. *)
Definition appended {TContext : Type} (type : Transition.Type_) (T : TypeInfo)
           (m : @_R TContext) : @_R TContext :=
  mkR (set_requests
         (mkArrayView (_capacity (_requests (env m)))
                      (_items (_requests (env m)) ++ [Transition.mk type T]))
         (env m))
      (_apex m).

(** ** Machines used in the examples *)

Module Ex.

(** State types. *)
Definition R0 : TypeInfo := 0%nat.
Definition A  : TypeInfo := 1%nat.
Definition B  : TypeInfo := 2%nat.
Definition C  : TypeInfo := 3%nat.
Definition P0 : TypeInfo := 10%nat.
Definition A1 : TypeInfo := 11%nat.
Definition A2 : TypeInfo := 12%nat.
Definition Q0 : TypeInfo := 20%nat.
Definition B1 : TypeInfo := 21%nat.
Definition B2 : TypeInfo := 22%nat.
Definition P1 : TypeInfo := 31%nat.
Definition P2 : TypeInfo := 32%nat.
Definition P3 : TypeInfo := 33%nat.
Definition P4 : TypeInfo := 34%nat.

(** [Root = C[R0; L[A], L[B]]]. *)
Definition XorPair : Region :=
  _C (Fork_ctor 0) R0 (SubN (_S A) (Sub1 (_S B))).

(** [Root = C[R0; L[A], L[B], L[C]]]. *)
Definition XorTriple : Region :=
  _C (Fork_ctor 0) R0 (SubN (_S A) (SubN (_S B) (Sub1 (_S C)))).

(** [Root = O[R0; L[A], L[B]]]. *)
Definition AndPair : Region :=
  _O (Fork_ctor 0) R0 (SubN (_S A) (Sub1 (_S B))).

(** [Root = C[R0; C[P0; L[A1], L[A2]], C[Q0; L[B1], L[B2]]]]. *)
Definition TwoRegions : Region :=
  _C (Fork_ctor 0) R0
     (SubN (_C (Fork_ctor 1) P0 (SubN (_S A1) (Sub1 (_S A2))))
           (Sub1 (_C (Fork_ctor 2) Q0 (SubN (_S B1) (Sub1 (_S B2)))))).

(** [Root = C[R0; L[A], C[P1; C[P2; C[P3; C[P4; L[B]]]]]]]. *)
Definition Chain : Region :=
  _C (Fork_ctor 0) R0
     (SubN (_S A)
        (Sub1 (_C (Fork_ctor 1) P1
           (Sub1 (_C (Fork_ctor 2) P2
              (Sub1 (_C (Fork_ctor 3) P3
                 (Sub1 (_C (Fork_ctor 4) P4 (Sub1 (_S B))))))))))).

(** Every state is [Base]: no callback does anything. *)
Definition idle : TypeInfo -> @UserState unit unit := fun _ => Base.

(** A state whose [substitute] redirects the transition to [T]. *)
Definition redirect (T : TypeInfo) : @UserState unit unit :=
  mkUserState [Bare_default]
              (fun _ c => ([Transition.mk Transition.Restart T], c))
              (fun c => c) (fun c => c)
              (fun _ c => ([], c)) (fun _ _ c => ([], c)) (fun c => c).

(** [B]'s guard asks for [C] and [C]'s guard asks for [B]. *)
Definition pingpong : TypeInfo -> @UserState unit unit :=
  fun T => if Nat.eqb T B then redirect C
           else if Nat.eqb T C then redirect B
           else Base.

(** The host: one call after another, as long as each returns. *)
Definition andThen {X Y : Type} (o : option X) (f : X -> option Y) : option Y :=
  match o with
  | Some x => f x
  | None => None
  end.

(** [update()] with the default [MaxSubstitutions]. *)
Definition tick (user : TypeInfo -> @UserState unit unit) (m : @_R unit)
  : option (@_R unit) :=
  option_map fst (R_update user TMaxSubstitutions_default m).

Definition construct (user : TypeInfo -> @UserState unit unit) (Apex : Region)
  : option (@_R unit) :=
  R_ctor user TMaxSubstitutions_default Apex tt (Some []).

(** What the history of [after] holds beyond that of [before]. *)
Definition added (before after : @_R unit) : list LogItem :=
  skipn (length (trace (env before))) (trace (env after)).

(** What a host sequence leaves, or a blank machine if a call failed. *)
Definition blank : @_R unit :=
  mkR (mkEnv tt (Array_ctor 0) None []) (_S R0).

Definition get (o : option (@_R unit)) : @_R unit :=
  match o with
  | Some m => m
  | None => blank
  end.

(** Scenario 1 of the spec: [XorPair] constructed, then [changeTo<B>()];
    and the machine after the [update()] that follows. *)
Definition pairRequested : @_R unit :=
  Eval vm_compute in get (andThen (construct idle XorPair) (changeTo B)).

Definition pairSwitched : @_R unit :=
  Eval vm_compute in get (tick idle pairRequested).

(** [Chain] constructed, then [changeTo<P1>()]; and after [update()]. *)
Definition chainRequested : @_R unit :=
  Eval vm_compute in get (andThen (construct idle Chain) (changeTo P1)).

Definition chainSwitched : @_R unit :=
  Eval vm_compute in get (tick idle chainRequested).

(** [XorTriple] with the guards of [pingpong], then [changeTo<B>()]; and
    after [update()]. *)
Definition tripleRequested : @_R unit :=
  Eval vm_compute in get (andThen (construct pingpong XorTriple) (changeTo B)).

Definition tripleOverflowed : @_R unit :=
  Eval vm_compute in get (tick pingpong tripleRequested).

(** The spec's scenario 5, on [XorPair]: [A]'s guard asks for [B] and
    [B]'s guard asks for [A]. *)
Definition guarded : TypeInfo -> @UserState unit unit :=
  fun T => if Nat.eqb T A then redirect B
           else if Nat.eqb T B then redirect A
           else Base.

Definition guardStarted : @_R unit :=
  Eval vm_compute in get (construct guarded XorPair).

Definition guardRequested : @_R unit :=
  Eval vm_compute in get (changeTo B guardStarted).

Definition guardOverflowed : @_R unit :=
  Eval vm_compute in get (tick guarded guardRequested).


(** [XorPair] and [AndPair] just constructed; [AndPair] with one request. *)
Definition pairStarted : @_R unit :=
  Eval vm_compute in get (construct idle XorPair).

Definition andStarted : @_R unit :=
  Eval vm_compute in get (construct idle AndPair).

Definition andRequested : @_R unit :=
  Eval vm_compute in get (changeTo A andStarted).

(** The root of [pairRequested] once its request is handled, and what the
    apply point makes of it. *)
Definition pairMarked : Region :=
  Eval vm_compute in
    match handleRequests (_items (_requests (env pairRequested))) (_apex pairRequested) with
    | Some r => r
    | None => _S R0
    end.

Definition pairApplied : Region * @Env unit :=
  Eval vm_compute in
    match deepChangeToRequested idle pairMarked (env pairRequested) with
    | Some x => x
    | None => (_S R0, env blank)
    end.

(** [TwoRegions]: [changeTo<B1>()] and a tick enter the region [Q0]; then
    [changeTo<A1>()] and a tick leave it; then [schedule<B2>()] and a tick;
    then [resume<Q0>()] and a tick. *)
Definition regionsEntered : @_R unit :=
  Eval vm_compute in
    get (andThen (andThen (construct idle TwoRegions) (changeTo B1)) (tick idle)).

Definition regionsLeft : @_R unit :=
  Eval vm_compute in get (andThen (changeTo A1 regionsEntered) (tick idle)).

Definition regionsScheduled : @_R unit :=
  Eval vm_compute in get (andThen (schedule B2 regionsLeft) (tick idle)).

Definition regionsResumed : @_R unit :=
  Eval vm_compute in get (andThen (resume Q0 regionsScheduled) (tick idle)).





(** The fork of the region [Q0] of [TwoRegions]. *)
Definition forkQ (m : @_R unit) : option Fork :=
  match subRegion [1] (_apex m) with
  | Some r => forkOf r
  | None => None
  end.

(** The region [Q0] while [B1] is active, and once it is left. *)
Definition regionQ : Region :=
  Eval vm_compute in
    match subRegion [1] (_apex regionsEntered) with
    | Some r => r
    | None => _S R0
    end.

Definition regionQLeft : Region * @Env unit :=
  Eval vm_compute in
    match deepLeave idle regionQ (env regionsEntered) with
    | Some x => x
    | None => (_S R0, env blank)
    end.

(** [Q0] once left, then asked for [B2], entered and updated. *)
Definition regionQRequested : Region :=
  Eval vm_compute in deepRequest Transition.Restart B2 (fst regionQLeft).

Definition regionQEntered : Region * @Env unit :=
  Eval vm_compute in
    match deepEnter idle regionQRequested (snd regionQLeft) with
    | Some x => x
    | None => (_S R0, env blank)
    end.

Definition regionQUpdated : Region * @Env unit :=
  Eval vm_compute in
    match deepUpdate idle (fst regionQEntered) (snd regionQEntered) with
    | Some x => x
    | None => (_S R0, env blank)
    end.

(** [resume<B2>()] and a tick, once [Q0] is left with [B1] its last active
    prong. *)
Definition regionsResumedBelow : @_R unit :=
  Eval vm_compute in get (andThen (resume B2 regionsLeft) (tick idle)).

(** The guard of [B] under [pingpong], run on [pairStarted]. *)
Definition pairGuarded : unit * @Env unit :=
  Eval vm_compute in
    match S_deepSubstitute pingpong B (env pairStarted) with
    | Some x => x
    | None => (tt, env blank)
    end.

End Ex.

(** ** More of the build-time model *)

(** The sub-states of a [Sub], in declaration order. *)
Fixpoint Sub_children (s : Sub) : list Region :=
  match s with
  | Sub1 i => [i]
  | SubN i r => i :: Sub_children r
  end.

Section Enumerators.

(** The enumerators of [_S] and [_C] are declared in [machine_state.hpp] and
    [machine_composite.hpp], which are not among the sources: they are
    taken as they come, a value for a leaf and a function of the sub-states
    for a composite. *)
Variable S_ReverseDepth : Z.
Variable C_ReverseDepth : Sub -> Z.
Variable S_DeepWidth : Z.
Variable C_DeepWidth : Sub -> Z.
Variable S_ProngCount : Z.
Variable C_ProngCount : Sub -> Z.

(** [_O::ReverseDepth = SubStates::ReverseDepth + 1], and in [_O::Sub]
    [ReverseDepth = Max<Initial::ReverseDepth, Remaining::ReverseDepth>::Value]
    ([Initial::ReverseDepth] for the last one). *)
Fixpoint ReverseDepth (r : Region) : Z :=
  match r with
  | _S _ => S_ReverseDepth
  | _C _ _ subs => C_ReverseDepth subs
  | _O _ _ subs => wrap32 (Sub_ReverseDepth subs + 1)
  end
with Sub_ReverseDepth (s : Sub) : Z :=
  match s with
  | Sub1 i => ReverseDepth i
  | SubN i r => detail.Max (ReverseDepth i) (Sub_ReverseDepth r)
  end.

(** [_O::DeepWidth = SubStates::DeepWidth], and in [_O::Sub]
    [DeepWidth = Initial::DeepWidth + Remaining::DeepWidth]. *)
Fixpoint DeepWidth (r : Region) : Z :=
  match r with
  | _S _ => S_DeepWidth
  | _C _ _ subs => C_DeepWidth subs
  | _O _ _ subs => Sub_DeepWidth subs
  end
with Sub_DeepWidth (s : Sub) : Z :=
  match s with
  | Sub1 i => DeepWidth i
  | SubN i r => wrap32 (DeepWidth i + Sub_DeepWidth r)
  end.

(** [_O::ProngCount = SubStates::ProngCount], and in [_O::Sub]
    [ProngCount = Initial::ProngCount + Remaining::ProngCount]. *)
Fixpoint ProngCount (r : Region) : Z :=
  match r with
  | _S _ => S_ProngCount
  | _C _ _ subs => C_ProngCount subs
  | _O _ _ subs => Sub_ProngCount subs
  end
with Sub_ProngCount (s : Sub) : Z :=
  match s with
  | Sub1 i => ProngCount i
  | SubN i r => wrap32 (ProngCount i + Sub_ProngCount r)
  end.

(** [using Prefix = detail::StaticArray<wchar_t, ReverseDepth * 2 + 2>] and
    [using Prefixes = detail::StaticArray<Prefix, StateCount>], of a root
    built with [HFSM_ENABLE_STRUCTURE_REPORT]. *)
Definition Prefix_CAPACITY (Apex : Region) : Z :=
  wrap32 (wrap32 (ReverseDepth Apex * 2) + 2).

Definition Prefixes_CAPACITY (Apex : Region) : Z := StateCount Apex.

End Enumerators.

(** [detail::StaticArray<T, TCapacity>]: its
    [static_assert(CAPACITY <= std::numeric_limits<Index>::max(), "")], which
    the specialisation for capacity 0 does not have, and [count()]. *)
Module StaticArray.

Definition static_assert_CAPACITY (CAPACITY : Z) : bool :=
  (CAPACITY =? 0) || (CAPACITY <=? Index_max).

Definition count (CAPACITY : Z) : Z := CAPACITY.

End StaticArray.

(** [n] orthogonal regions nested in one another, each with a single
    sub-state, around [inner]. *)
Fixpoint nested (n : nat) (inner : Region) : Region :=
  match n with
  | O => inner
  | S n' => _O (Fork_ctor (Z.of_nat n')) (S n') (Sub1 (nested n' inner))
  end.

(** The host calls [changeTo<T>], [resume<T>] or [schedule<T>] of the root
    once for each entry, first to last. *)
Fixpoint requestAll {TContext : Type} (calls : list Transition) (m : @_R TContext)
  : option (@_R TContext) :=
  match calls with
  | [] => Some m
  | call :: rest =>
      match request (Transition.type call) (Transition.stateType call) m with
      | Some m' => requestAll rest m'
      | None => None
      end
  end.

(** * Properties *)

(** ** Machine integers and build-time sizes *)

Lemma wrap32_range z : 0 <= wrap32 z < 2 ^ 32.
Proof. unfold wrap32. apply Z.mod_pos_bound. reflexivity. Qed.

Lemma wrap32_small z : 0 <= z < 2 ^ 32 -> wrap32 z = z.
Proof. intros H. unfold wrap32. apply Z.mod_small. exact H. Qed.

Lemma wrap32_add_l a b : wrap32 (wrap32 a + b) = wrap32 (a + b).
Proof. unfold wrap32. apply Zplus_mod_idemp_l. Qed.

Lemma wrap32_add_r a b : wrap32 (a + wrap32 b) = wrap32 (a + b).
Proof. unfold wrap32. apply Zplus_mod_idemp_r. Qed.

Lemma StateCount_range :
  (forall r, 0 <= StateCount r < 2 ^ 32) /\
  (forall s, 0 <= Sub_StateCount s < 2 ^ 32).
Proof.
  apply Region_mutind; simpl; intros;
    unfold C_StateCount, O_StateCount, S_StateCount;
    auto using wrap32_range.
  lia.
Qed.

Lemma StateCount_states :
  (forall r, StateCount r = wrap32 (Z.of_nat (states r))) /\
  (forall s, Sub_StateCount s = wrap32 (Z.of_nat (Sub_states s))).
Proof.
  apply Region_mutind; simpl; intros;
    unfold C_StateCount, O_StateCount, S_StateCount.
  - reflexivity.
  - rewrite H, wrap32_add_r. f_equal. lia.
  - rewrite H, wrap32_add_r. f_equal. lia.
  - assumption.
  - rewrite H, H0, wrap32_add_l, wrap32_add_r. f_equal. lia.
Qed.

Lemma ForkCount_regions :
  (forall r, ForkCount r = wrap32 (Z.of_nat (composites r + orthogonals r))) /\
  (forall s, Sub_ForkCount s
             = wrap32 (Z.of_nat (Sub_composites s + Sub_orthogonals s))).
Proof.
  apply Region_mutind; simpl; intros;
    unfold C_ForkCount, O_ForkCount, S_ForkCount.
  - reflexivity.
  - rewrite H, wrap32_add_l. f_equal. lia.
  - rewrite H, wrap32_add_l. f_equal. lia.
  - assumption.
  - rewrite H, H0, wrap32_add_l, wrap32_add_r. f_equal. lia.
Qed.

(** C1, as the code has it: the build-time check of [_R] accepts a tree
    exactly when its [StateCount] is below 255, that is at most 254, and
    rejects every other with the message of the assertion. *)
Theorem static_assert_accepts_below_255 (Apex : Region) :
  (StateCount Apex < 255 ->
   R_static.static_assert_StateCount Apex = inl tt) /\
  (255 <= StateCount Apex ->
   R_static.static_assert_StateCount Apex = inr R_static.too_many_states).
Proof.
  unfold R_static.static_assert_StateCount, Index_max.
  split; intros H.
  - destruct (Z.ltb_spec (StateCount Apex) 255); [reflexivity | lia].
  - destruct (Z.ltb_spec (StateCount Apex) 255); [lia | reflexivity].
Qed.

(** C1 fails as stated: a root with 254 leaves has [StateCount = 255], which
    is within the claimed bound, and the assertion rejects it. *)
Lemma static_assert_rejects_255 :
  StateCount (peers 254) = 255 /\
  StateCount (peers 254) <= 255 /\
  R_static.static_assert_StateCount (peers 254) = inr R_static.too_many_states.
Proof. vm_compute. repeat split; discriminate. Qed.

(** C10: for every tree the registry's capacity is exactly [StateCount]: the
    cast truncates the literal 1.3 to 1 before the product. *)
Theorem StateCapacity_is_StateCount (Apex : Region) :
  R_static.cast_unsigned R_static.literal_1_3 = 1 /\
  R_static.StateCapacity Apex = StateCount Apex.
Proof.
  assert (E : R_static.cast_unsigned R_static.literal_1_3 = 1) by reflexivity.
  split; [exact E |].
  unfold R_static.StateCapacity. rewrite E, Z.mul_1_l.
  apply wrap32_small. apply StateCount_range.
Qed.

(** ** The monad *)

Lemma bind_inv {TContext A B : Type} (m : @M TContext A) (k : A -> @M TContext B) e x :
  bind m k e = Some x ->
  exists a e1, m e = Some (a, e1) /\ k a e1 = Some x.
Proof.
  unfold bind. destruct (m e) as [[a e1] |]; [eauto | discriminate].
Qed.

Ltac monad_inv :=
  repeat match goal with
    | H : bind _ _ _ = Some _ |- _ =>
        apply bind_inv in H; destruct H as (? & ? & ? & H)
    | H : ret _ _ = Some _ |- _ =>
        unfold ret in H; inversion H; subst; clear H
    | H : modify _ _ = Some _ |- _ =>
        unfold modify in H; inversion H; subst; clear H
    | H : gets _ _ = Some _ |- _ =>
        unfold gets in H; inversion H; subst; clear H
    | H : fail _ = Some _ |- _ => discriminate H
    | H : assert ?b _ = Some _ |- _ =>
        let E := fresh "E" in
        destruct b eqn:E; [unfold assert in H | discriminate H]
    end.

Section EngineFacts.

Context {TContext TEvent : Type}.
Variable user : TypeInfo -> @UserState TContext TEvent.

Local Abbreviation Env := (@Env TContext).

(** ** The environment relation [Steps] *)

Lemma Steps_refl K (e : Env) : Steps K e e.
Proof.
  split; [| split; [reflexivity | auto]].
  exists []. rewrite app_nil_r. split; [reflexivity | split; [constructor |]].
  destruct (_logger e); simpl; [rewrite app_nil_r |]; reflexivity.
Qed.

Lemma Steps_trans K (e1 e2 e3 : Env) :
  Steps K e1 e2 -> Steps K e2 e3 -> Steps K e1 e3.
Proof.
  intros ((d1 & T1 & F1 & L1) & C1 & B1) ((d2 & T2 & F2 & L2) & C2 & B2).
  split; [| split; [congruence | auto]].
  exists (d1 ++ d2). split; [| split].
  - rewrite T2, T1, app_assoc. reflexivity.
  - apply Forall_app; auto.
  - rewrite L2, L1. destruct (_logger e1); simpl; [rewrite app_assoc |]; reflexivity.
Qed.

Lemma Steps_weaken (K K' : LogItem -> Prop) (e e' : Env) :
  (forall i, K i -> K' i) -> Steps K e e' -> Steps K' e e'.
Proof.
  intros HK ((d & T & F & L) & C & B).
  split; [| split; assumption].
  exists d. split; [assumption | split; [| assumption]].
  eapply Forall_impl; eauto.
Qed.

Lemma Steps_emit K i (e : Env) : K i -> Steps K e (emit i e).
Proof.
  intros Hi. split; [| split; [reflexivity | auto]].
  exists [i]. simpl. split; [reflexivity | split; [repeat constructor; exact Hi |]].
  reflexivity.
Qed.

Lemma Steps_set_context K c (e : Env) : Steps K e (set_context c e).
Proof.
  split; [| split; [reflexivity | auto]].
  exists []. simpl. rewrite app_nil_r. split; [reflexivity | split; [constructor |]].
  destruct (_logger e); simpl; [rewrite app_nil_r |]; reflexivity.
Qed.

Lemma append_inv {T} (v v' : ArrayView T) x :
  View.append v x = Some v' ->
  _items v' = _items v ++ [x] /\ _capacity v' = _capacity v /\
  View.count v < _capacity v /\ View.count v' <= _capacity v'.
Proof.
  unfold View.append. destruct (Z.ltb_spec (View.count v) (_capacity v)); [| discriminate].
  intros E. inversion E; subst; clear E. simpl.
  repeat split; try assumption.
  unfold View.count in *. simpl. rewrite length_app. simpl. lia.
Qed.

Lemma append_all_inv {T} xs : forall (v v' : ArrayView T),
  View.append_all v xs = Some v' ->
  _items v' = _items v ++ xs /\ _capacity v' = _capacity v /\
  (View.count v <= _capacity v -> View.count v' <= _capacity v').
Proof.
  induction xs as [| x xs IH]; simpl; intros v v' E.
  - inversion E; subst. rewrite app_nil_r. auto.
  - destruct (View.append v x) as [v1 |] eqn:E1; [| discriminate].
    apply append_inv in E1. destruct E1 as (I1 & C1 & _ & B1).
    apply IH in E. destruct E as (I & C & B).
    rewrite I, I1, <- app_assoc. simpl. repeat split; [congruence | auto].
Qed.

Lemma Steps_issue K rs (e e' : Env) u :
  issue rs e = Some (u, e') -> Steps K e e'.
Proof.
  unfold issue. destruct (View.append_all (_requests e) rs) as [q |] eqn:E; [| discriminate].
  intros H. inversion H; subst; clear H.
  apply append_all_inv in E. destruct E as (_ & C & B).
  split; [| split; [exact C | exact B]].
  exists []. simpl. rewrite app_nil_r. split; [reflexivity | split; [constructor |]].
  destruct (_logger e); simpl; [rewrite app_nil_r |]; reflexivity.
Qed.

Lemma Steps_runHooks K chain T (e e' : Env) u :
  runHooks user chain T e = Some (u, e') -> Steps K e e'.
Proof.
  unfold runHooks. intros H. monad_inv. apply Steps_set_context.
Qed.

Lemma Steps_runPlain K cb T (e e' : Env) u :
  runPlain user cb T e = Some (u, e') -> Steps K e e'.
Proof.
  unfold runPlain. intros H. monad_inv. apply Steps_set_context.
Qed.

Lemma Steps_runControlled K cb T (e e' : Env) u :
  runControlled user cb T e = Some (u, e') -> Steps K e e'.
Proof.
  unfold runControlled.
  destruct (cb (user T) (View.count (_requests e)) (_context e)) as [rs c].
  intros H. eapply Steps_trans; [apply Steps_set_context |].
  eapply Steps_issue; eauto.
Qed.

Lemma records_here T m ms : In m ms -> records ms (Recorded T m).
Proof. intros H. exists T, m. auto. Qed.

Lemma S_deepSubstitute_steps T (e e' : Env) u :
  S_deepSubstitute user T e = Some (u, e') ->
  Steps (records [LoggerInterface.Substitute]) e e'.
Proof.
  unfold S_deepSubstitute. intros H. monad_inv.
  eapply Steps_trans; [apply Steps_emit, records_here; simpl; auto |].
  eapply Steps_trans; [eapply Steps_runHooks; eauto |].
  eapply Steps_runControlled; eauto.
Qed.

Lemma S_deepEnter_steps T (e e' : Env) u :
  S_deepEnter user T e = Some (u, e') ->
  Steps (records [LoggerInterface.Enter]) e e'.
Proof.
  unfold S_deepEnter. intros H. monad_inv.
  eapply Steps_trans; [apply Steps_emit, records_here; simpl; auto |].
  eapply Steps_trans; [eapply Steps_runHooks; eauto |].
  eapply Steps_runPlain; eauto.
Qed.

Lemma S_deepUpdate_steps T (e e' : Env) u :
  S_deepUpdate user T e = Some (u, e') ->
  Steps (records [LoggerInterface.Update]) e e'.
Proof.
  unfold S_deepUpdate. intros H. monad_inv.
  eapply Steps_trans; [apply Steps_emit, records_here; simpl; auto |].
  eapply Steps_trans; [eapply Steps_runHooks; eauto |].
  eapply Steps_runPlain; eauto.
Qed.

Lemma S_deepTransition_steps T (e e' : Env) u :
  S_deepTransition user T e = Some (u, e') ->
  Steps (records [LoggerInterface.Transition]) e e'.
Proof.
  unfold S_deepTransition. intros H. monad_inv.
  eapply Steps_trans; [apply Steps_emit, records_here; simpl; auto |].
  eapply Steps_trans; [eapply Steps_runHooks; eauto |].
  eapply Steps_runControlled; eauto.
Qed.

Lemma S_deepReact_steps ev T (e e' : Env) u :
  S_deepReact user ev T e = Some (u, e') ->
  Steps (records [LoggerInterface.React]) e e'.
Proof.
  unfold S_deepReact. intros H. monad_inv.
  eapply Steps_trans; [apply Steps_emit, records_here; simpl; auto |].
  eapply Steps_trans; [eapply Steps_runHooks; eauto |].
  eapply Steps_runControlled; eauto.
Qed.

Lemma S_deepLeave_steps T (e e' : Env) u :
  S_deepLeave user T e = Some (u, e') ->
  Steps (records [LoggerInterface.Leave]) e e'.
Proof.
  unfold S_deepLeave. intros H. monad_inv.
  eapply Steps_trans; [apply Steps_emit, records_here; simpl; auto |].
  eapply Steps_trans; [eapply Steps_runPlain; eauto |].
  eapply Steps_runHooks; eauto.
Qed.

(** ** What the region methods add to the history *)

Lemma wideSpec_Sub1 (deep : Region -> @M TContext Region) K i :
  deepSpec deep (Steps K) i -> wideSpec deep (Steps K) (Sub1 i).
Proof.
  intros Hi. unfold wideSpec. split; [| split]; intros until e'; intros E;
    cbn [wideAll wideAllReverse wideAt] in E.
  - monad_inv. eapply Hi; eauto.
  - monad_inv. eapply Hi; eauto.
  - destruct (p =? TN); monad_inv; [eapply Hi; eauto | apply Steps_refl].
Qed.

Lemma wideSpec_SubN (deep : Region -> @M TContext Region) K i r :
  deepSpec deep (Steps K) i -> wideSpec deep (Steps K) r ->
  wideSpec deep (Steps K) (SubN i r).
Proof.
  intros Hi (Hall & Hrev & Hat). unfold wideSpec.
  split; [| split]; intros until e'; intros E;
    cbn [wideAll wideAllReverse wideAt] in E.
  - monad_inv. eapply Steps_trans; [eapply Hi | eapply Hall]; eauto.
  - monad_inv. eapply Steps_trans; [eapply Hrev | eapply Hi]; eauto.
  - destruct (p =? TN); monad_inv; [eapply Hi | eapply Hat]; eauto.
Qed.

Ltac steps_chain :=
  repeat match goal with
    | |- Steps _ ?e ?e => apply Steps_refl
    | H : S_deepEnter _ _ ?e = Some (_, _) |- Steps _ ?e _ =>
        eapply Steps_trans; [eapply Steps_weaken; [| eapply S_deepEnter_steps; exact H] |]; clear H
    | H : S_deepLeave _ _ ?e = Some (_, _) |- Steps _ ?e _ =>
        eapply Steps_trans; [eapply Steps_weaken; [| eapply S_deepLeave_steps; exact H] |]; clear H
    | H : S_deepUpdate _ _ ?e = Some (_, _) |- Steps _ ?e _ =>
        eapply Steps_trans; [eapply Steps_weaken; [| eapply S_deepUpdate_steps; exact H] |]; clear H
    | H : S_deepTransition _ _ ?e = Some (_, _) |- Steps _ ?e _ =>
        eapply Steps_trans; [eapply Steps_weaken; [| eapply S_deepTransition_steps; exact H] |]; clear H
    | H : S_deepReact _ _ _ ?e = Some (_, _) |- Steps _ ?e _ =>
        eapply Steps_trans; [eapply Steps_weaken; [| eapply S_deepReact_steps; exact H] |]; clear H
    | H : S_deepSubstitute _ _ ?e = Some (_, _) |- Steps _ ?e _ =>
        eapply Steps_trans; [eapply Steps_weaken; [| eapply S_deepSubstitute_steps; exact H] |]; clear H
    | W : wideSpec ?deep (Steps ?K) ?s, H : wideAll ?deep ?s ?e = Some (_, _) |- Steps _ ?e _ =>
        eapply Steps_trans; [eapply Steps_weaken; [| eapply (proj1 W); exact H] |]; clear H
    | W : wideSpec ?deep (Steps ?K) ?s, H : wideAllReverse ?deep ?s ?e = Some (_, _) |- Steps _ ?e _ =>
        eapply Steps_trans; [eapply Steps_weaken; [| eapply (proj1 (proj2 W)); exact H] |]; clear H
    | W : wideSpec ?deep (Steps ?K) ?s, H : wideAt ?deep _ _ ?s ?e = Some (_, _) |- Steps _ ?e _ =>
        eapply Steps_trans; [eapply Steps_weaken; [| eapply (proj2 (proj2 W)); exact H] |]; clear H
    end.

Lemma records_incl ms ms' i : incl ms ms' -> records ms i -> records ms' i.
Proof. intros Hi (T & m & E & Hm). exists T, m. auto. Qed.

Ltac records_side :=
  try (intros ? ?; eapply records_incl; [| eassumption];
       intros ? ?; simpl in *; tauto);
  try (intros ? ?; assumption).


Ltac if_inv :=
  repeat match goal with
    | H : (if ?b then _ else _) _ = Some _ |- _ =>
        let E := fresh "E" in destruct b eqn:E
    end.

Ltac region_steps unfolding :=
  apply Region_mutind; intros;
  [| | | apply wideSpec_Sub1; assumption | apply wideSpec_SubN; assumption];
  intros e r' e' E; unfolding E; if_inv; monad_inv;
  steps_chain; records_side.

Lemma deepEnter_steps :
  (forall r, deepSpec (deepEnter user) (Steps (records [LoggerInterface.Enter])) r) /\
  (forall s, wideSpec (deepEnter user) (Steps (records [LoggerInterface.Enter])) s).
Proof. region_steps ltac:(fun E => cbn [deepEnter] in E). Qed.

Lemma deepUpdate_steps :
  (forall r, deepSpec (deepUpdate user) (Steps (records [LoggerInterface.Update])) r) /\
  (forall s, wideSpec (deepUpdate user) (Steps (records [LoggerInterface.Update])) s).
Proof. region_steps ltac:(fun E => cbn [deepUpdate] in E). Qed.

Lemma deepTransition_steps :
  (forall r, deepSpec (deepTransition user) (Steps (records [LoggerInterface.Transition])) r) /\
  (forall s, wideSpec (deepTransition user) (Steps (records [LoggerInterface.Transition])) s).
Proof. region_steps ltac:(fun E => cbn [deepTransition] in E). Qed.

Lemma deepReact_steps ev :
  (forall r, deepSpec (deepReact user ev) (Steps (records [LoggerInterface.React])) r) /\
  (forall s, wideSpec (deepReact user ev) (Steps (records [LoggerInterface.React])) s).
Proof. region_steps ltac:(fun E => cbn [deepReact] in E). Qed.

Lemma deepLeave_steps :
  (forall r, deepSpec (deepLeave user) (Steps (records [LoggerInterface.Leave])) r) /\
  (forall s, wideSpec (deepLeave user) (Steps (records [LoggerInterface.Leave])) s).
Proof. region_steps ltac:(fun E => cbn [deepLeave] in E). Qed.

Lemma deepSubstitute_steps :
  (forall r, deepSpec (deepSubstitute user) (Steps (records [LoggerInterface.Substitute])) r) /\
  (forall s, wideSpec (deepSubstitute user) (Steps (records [LoggerInterface.Substitute])) s).
Proof. region_steps ltac:(fun E => cbn [deepSubstitute] in E). Qed.

Lemma deepForwardSubstitute_steps :
  (forall r, deepSpec (deepForwardSubstitute user) (Steps (records [LoggerInterface.Substitute])) r) /\
  (forall s, wideSpec (deepForwardSubstitute user) (Steps (records [LoggerInterface.Substitute])) s).
Proof.
  apply Region_mutind; intros;
  [| | | apply wideSpec_Sub1; assumption | apply wideSpec_SubN; assumption];
  intros e r' e' E; cbn [deepForwardSubstitute] in E; if_inv; monad_inv;
  try pose proof (proj2 deepSubstitute_steps _subStates) as W;
  steps_chain; records_side.
Qed.

Lemma deepChangeToRequested_steps :
  (forall r, deepSpec (deepChangeToRequested user)
               (Steps (records [LoggerInterface.Leave; LoggerInterface.Enter])) r) /\
  (forall s, wideSpec (deepChangeToRequested user)
               (Steps (records [LoggerInterface.Leave; LoggerInterface.Enter])) s).
Proof.
  apply Region_mutind; intros;
  [| | | apply wideSpec_Sub1; assumption | apply wideSpec_SubN; assumption];
  intros e r' e' E; cbn [deepChangeToRequested] in E; if_inv; monad_inv;
  try pose proof (proj2 deepLeave_steps _subStates) as WL;
  try (match goal with H : wideAt (deepEnter _) _ _ ?s _ = _ |- _ =>
         pose proof (proj2 deepEnter_steps s) as WE end);
  steps_chain; records_side.
Qed.

(** ** Methods that only read the tree *)

Lemma wideSame_Sub1 (deep : Region -> @M TContext Region) i :
  deepSame deep i -> wideSame deep (Sub1 i).
Proof.
  intros Hi. unfold wideSame. split; intros until e'; intros E;
    cbn [wideAll wideAt] in E.
  - monad_inv. f_equal. eapply Hi; eauto.
  - destruct (p =? TN); monad_inv; [f_equal; eapply Hi; eauto | reflexivity].
Qed.

Lemma wideSame_SubN (deep : Region -> @M TContext Region) i r :
  deepSame deep i -> wideSame deep r -> wideSame deep (SubN i r).
Proof.
  intros Hi (Hall & Hat). unfold wideSame. split; intros until e'; intros E;
    cbn [wideAll wideAt] in E.
  - monad_inv. f_equal; [eapply Hi | eapply Hall]; eauto.
  - destruct (p =? TN); monad_inv; f_equal; [eapply Hi | eapply Hat]; eauto.
Qed.

Ltac region_same unfolding :=
  apply Region_mutind; intros;
  [| | | apply wideSame_Sub1; assumption | apply wideSame_SubN; assumption];
  intros e r' e' E; unfolding E; if_inv; monad_inv;
  try reflexivity;
  repeat match goal with
    | W : wideSame ?deep ?s, H : wideAll ?deep ?s _ = Some (_, _) |- _ =>
        apply (proj1 W) in H; subst
    | W : wideSame ?deep ?s, H : wideAt ?deep _ _ ?s _ = Some (_, _) |- _ =>
        apply (proj2 W) in H; subst
    end;
  try reflexivity.

Lemma deepUpdate_same :
  (forall r, deepSame (deepUpdate user) r) /\ (forall s, wideSame (deepUpdate user) s).
Proof. region_same ltac:(fun E => cbn [deepUpdate] in E). Qed.

Lemma deepTransition_same :
  (forall r, deepSame (deepTransition user) r) /\ (forall s, wideSame (deepTransition user) s).
Proof. region_same ltac:(fun E => cbn [deepTransition] in E). Qed.

Lemma deepReact_same ev :
  (forall r, deepSame (deepReact user ev) r) /\ (forall s, wideSame (deepReact user ev) s).
Proof. region_same ltac:(fun E => cbn [deepReact] in E). Qed.

Lemma deepSubstitute_same :
  (forall r, deepSame (deepSubstitute user) r) /\ (forall s, wideSame (deepSubstitute user) s).
Proof. region_same ltac:(fun E => cbn [deepSubstitute] in E). Qed.

Lemma deepForwardSubstitute_same :
  (forall r, deepSame (deepForwardSubstitute user) r) /\
  (forall s, wideSame (deepForwardSubstitute user) s).
Proof.
  apply Region_mutind; intros;
  [| | | apply wideSame_Sub1; assumption | apply wideSame_SubN; assumption];
  intros e r' e' E; cbn [deepForwardSubstitute] in E; if_inv; monad_inv;
  try reflexivity;
  try pose proof (proj2 deepSubstitute_same _subStates) as W;
  repeat match goal with
    | W : wideSame ?deep ?s, H : wideAll ?deep ?s _ = Some (_, _) |- _ =>
        apply (proj1 W) in H; subst
    | W : wideSame ?deep ?s, H : wideAt ?deep _ _ ?s _ = Some (_, _) |- _ =>
        apply (proj2 W) in H; subst
    end;
  reflexivity.
Qed.

(** ** How many guards one pass runs *)

Lemma Grows_refl n (e : Env) : Grows n e e.
Proof. exists []. rewrite app_nil_r. simpl. split; [reflexivity | lia]. Qed.

Lemma Grows_trans n m (e1 e2 e3 : Env) :
  Grows n e1 e2 -> Grows m e2 e3 -> Grows (n + m) e1 e3.
Proof.
  intros (d1 & T1 & L1) (d2 & T2 & L2). exists (d1 ++ d2). split.
  - rewrite T2, T1, app_assoc. reflexivity.
  - rewrite length_app. lia.
Qed.

Lemma Grows_le n m (e e' : Env) : (n <= m)%nat -> Grows n e e' -> Grows m e e'.
Proof. intros Hle (d & T & L). exists d. split; [assumption | lia]. Qed.

Lemma Steps_Grows_0 K (e e' : Env) :
  Steps K e e' -> trace e' = trace e -> Grows 0 e e'.
Proof. intros _ E. exists []. rewrite app_nil_r. simpl. split; [assumption | lia]. Qed.

Lemma S_deepSubstitute_grows T (e e' : Env) u :
  S_deepSubstitute user T e = Some (u, e') -> Grows 1 e e'.
Proof.
  unfold S_deepSubstitute, runHooks, runControlled. intros H. monad_inv.
  destruct (substitute _ _ _) as [rs c].
  unfold issue in H. simpl in H.
  destruct (View.append_all _ rs); [| discriminate].
  inversion H; subst; clear H.
  exists [Recorded T LoggerInterface.Substitute]. simpl. split; [reflexivity | lia].
Qed.

Lemma states_pos : (forall r, (1 <= states r)%nat) /\ (forall s, (1 <= Sub_states s)%nat).
Proof. apply Region_mutind; simpl; intros; lia. Qed.

Lemma deepSubstitute_grows :
  (forall r, deepSpec (deepSubstitute user) (Grows (states r)) r) /\
  (forall s, wideSpec (deepSubstitute user) (Grows (Sub_states s)) s).
Proof.
  apply Region_mutind.
  - intros h e r' e' E. cbn [deepSubstitute] in E. monad_inv.
    eapply S_deepSubstitute_grows; eauto.
  - intros f h subs (_ & _ & Hat) e r' e' E. cbn [deepSubstitute] in E. monad_inv.
    change (states (_C f h subs)) with (1 + Sub_states subs)%nat.
    eapply Grows_trans; [eapply S_deepSubstitute_grows; eauto | eapply Hat; eauto].
  - intros f h subs (Hall & _ & _) e r' e' E. cbn [deepSubstitute] in E. monad_inv.
    change (states (_O f h subs)) with (1 + Sub_states subs)%nat.
    eapply Grows_trans; [eapply S_deepSubstitute_grows; eauto | eapply Hall; eauto].
  - intros i Hi. unfold wideSpec. split; [| split]; intros until e'; intros E;
      cbn [wideAll wideAllReverse wideAt] in E; simpl.
    + monad_inv. eapply Hi; eauto.
    + monad_inv. eapply Hi; eauto.
    + destruct (p =? TN); monad_inv; [eapply Hi; eauto |].
      apply (Grows_le 0); [lia | apply Grows_refl].
  - intros i Hi r (Hall & Hrev & Hat). unfold wideSpec.
    split; [| split]; intros until e'; intros E;
      cbn [wideAll wideAllReverse wideAt] in E; simpl.
    + monad_inv. eapply Grows_trans; [eapply Hi | eapply Hall]; eauto.
    + monad_inv. rewrite Nat.add_comm.
      eapply Grows_trans; [eapply Hrev | eapply Hi]; eauto.
    + destruct (p =? TN); monad_inv.
      * eapply Grows_le; [| eapply Hi; eauto]. lia.
      * eapply Grows_le; [| eapply Hat; eauto]. lia.
Qed.

Lemma deepForwardSubstitute_grows :
  (forall r, deepSpec (deepForwardSubstitute user) (Grows (states r)) r) /\
  (forall s, wideSpec (deepForwardSubstitute user) (Grows (Sub_states s)) s).
Proof.
  apply Region_mutind.
  - intros h e r' e' E. cbn [deepForwardSubstitute] in E. monad_inv.
    apply Grows_refl.
  - intros f h subs (_ & _ & Hat) e r' e' E. cbn [deepForwardSubstitute] in E.
    change (states (_C f h subs)) with (1 + Sub_states subs)%nat.
    if_inv; monad_inv.
    + apply Grows_refl.
    + eapply Grows_le; [| eapply (proj2 (proj2 (proj2 deepSubstitute_grows subs))); eauto].
      lia.
  - intros f h subs (Hall & _ & _) e r' e' E. cbn [deepForwardSubstitute] in E.
    change (states (_O f h subs)) with (1 + Sub_states subs)%nat.
    monad_inv. eapply Grows_le; [| eapply Hall; eauto]. lia.
  - intros i Hi. unfold wideSpec. split; [| split]; intros until e'; intros E;
      cbn [wideAll wideAllReverse wideAt] in E; simpl.
    + monad_inv. eapply Hi; eauto.
    + monad_inv. eapply Hi; eauto.
    + destruct (p =? TN); monad_inv; [eapply Hi; eauto |].
      apply (Grows_le 0); [lia | apply Grows_refl].
  - intros i Hi r (Hall & Hrev & Hat). unfold wideSpec.
    split; [| split]; intros until e'; intros E;
      cbn [wideAll wideAllReverse wideAt] in E; simpl.
    + monad_inv. eapply Grows_trans; [eapply Hi | eapply Hall]; eauto.
    + monad_inv. rewrite Nat.add_comm.
      eapply Grows_trans; [eapply Hrev | eapply Hi]; eauto.
    + destruct (p =? TN); monad_inv.
      * eapply Grows_le; [| eapply Hi; eauto]. lia.
      * eapply Grows_le; [| eapply Hat; eauto]. lia.
Qed.

(** ** Requests leave the active configuration alone *)

Lemma wideMap_keeps (g : Fork -> Fork) (deep : Region -> Region) i :
  mapForks g (deep i) = mapForks g i ->
  (Sub_mapForks g (wideMapAll deep (Sub1 i)) = Sub_mapForks g (Sub1 i)) /\
  (forall p TN, Sub_mapForks g (wideMapAt deep p TN (Sub1 i)) = Sub_mapForks g (Sub1 i)).
Proof.
  intros Hi. split; [simpl; congruence |].
  intros p TN. simpl. destruct (p =? TN); simpl; congruence.
Qed.

Lemma wideMap_keeps_N (g : Fork -> Fork) (deep : Region -> Region) i r :
  mapForks g (deep i) = mapForks g i ->
  (Sub_mapForks g (wideMapAll deep r) = Sub_mapForks g r) /\
  (forall p TN, Sub_mapForks g (wideMapAt deep p TN r) = Sub_mapForks g r) ->
  (Sub_mapForks g (wideMapAll deep (SubN i r)) = Sub_mapForks g (SubN i r)) /\
  (forall p TN, Sub_mapForks g (wideMapAt deep p TN (SubN i r)) = Sub_mapForks g (SubN i r)).
Proof.
  intros Hi (Hall & Hat). split; [simpl; congruence |].
  intros p TN. simpl. destruct (p =? TN); simpl; [congruence |].
  rewrite Hat. reflexivity.
Qed.

Lemma deepRequestRestart_keeps :
  (forall r, activeConfiguration (deepRequestRestart r) = activeConfiguration r) /\
  (forall s, (Sub_mapForks keepActive (wideMapAll deepRequestRestart s)
              = Sub_mapForks keepActive s) /\
             (forall p TN, Sub_mapForks keepActive (wideMapAt deepRequestRestart p TN s)
                           = Sub_mapForks keepActive s)).
Proof.
  unfold activeConfiguration. apply Region_mutind; intros.
  - reflexivity.
  - simpl. rewrite (proj2 H). reflexivity.
  - simpl. rewrite (proj1 H). reflexivity.
  - apply wideMap_keeps; assumption.
  - apply wideMap_keeps_N; assumption.
Qed.

Lemma deepRequestResume_keeps :
  (forall r, activeConfiguration (deepRequestResume r) = activeConfiguration r) /\
  (forall s, (Sub_mapForks keepActive (wideMapAll deepRequestResume s)
              = Sub_mapForks keepActive s) /\
             (forall p TN, Sub_mapForks keepActive (wideMapAt deepRequestResume p TN s)
                           = Sub_mapForks keepActive s)).
Proof.
  unfold activeConfiguration. apply Region_mutind; intros.
  - reflexivity.
  - simpl. rewrite (proj2 H). reflexivity.
  - simpl. rewrite (proj1 H). reflexivity.
  - apply wideMap_keeps; assumption.
  - apply wideMap_keeps_N; assumption.
Qed.

Lemma onTarget_keeps kind r :
  activeConfiguration (onTarget kind r) = activeConfiguration r.
Proof.
  destruct kind; simpl; try reflexivity.
  - apply deepRequestRestart_keeps.
  - apply deepRequestResume_keeps.
Qed.

Lemma onPath_keeps kind p f : keepActive (onPath kind p f) = keepActive f.
Proof. destruct kind; reflexivity. Qed.

Lemma deepRequest_keeps kind T :
  (forall r, activeConfiguration (deepRequest kind T r) = activeConfiguration r) /\
  (forall s, (Sub_mapForks keepActive (wideMapAll (deepRequest kind T) s)
              = Sub_mapForks keepActive s) /\
             (forall p TN, Sub_mapForks keepActive (wideMapAt (deepRequest kind T) p TN s)
                           = Sub_mapForks keepActive s)).
Proof.
  apply Region_mutind; intros.
  - reflexivity.
  - cbn [deepRequest]. destruct (Nat.eqb _state T); [apply onTarget_keeps |].
    destruct (prongOf T 0 _subStates); [| reflexivity].
    unfold activeConfiguration. simpl. rewrite (proj2 H), onPath_keeps. reflexivity.
  - cbn [deepRequest]. destruct (Nat.eqb _state T); [apply onTarget_keeps |].
    destruct (prongOf T 0 _subStates); [| reflexivity].
    unfold activeConfiguration. simpl. rewrite (proj2 H). reflexivity.
  - apply wideMap_keeps; assumption.
  - apply wideMap_keeps_N; assumption.
Qed.

Lemma handleRequests_keeps pending : forall apex apex',
  handleRequests pending apex = Some apex' ->
  activeConfiguration apex' = activeConfiguration apex.
Proof.
  induction pending as [| request rest IH]; simpl; intros apex apex' E.
  - inversion E. reflexivity.
  - unfold handleRequest in E.
    destruct (contains (Transition.stateType request) apex); [| discriminate].
    apply IH in E. rewrite E. apply deepRequest_keeps.
Qed.

Lemma states_mapForks g :
  (forall r, states (mapForks g r) = states r) /\
  (forall s, Sub_states (Sub_mapForks g s) = Sub_states s).
Proof. apply Region_mutind; simpl; intros; congruence. Qed.

Lemma states_same_configuration r r' :
  activeConfiguration r' = activeConfiguration r -> states r' = states r.
Proof.
  intros E. rewrite <- (proj1 (states_mapForks keepActive) r'),
                    <- (proj1 (states_mapForks keepActive) r).
  unfold activeConfiguration in E. congruence.
Qed.

Lemma deepIsActive_configuration T :
  (forall r, deepIsActive T (activeConfiguration r) = deepIsActive T r) /\
  (forall s prong TN, wideIsActive T prong TN (Sub_mapForks keepActive s)
                      = wideIsActive T prong TN s).
Proof.
  unfold activeConfiguration. apply Region_mutind; intros; simpl.
  - reflexivity.
  - rewrite H. reflexivity.
  - rewrite H. reflexivity.
  - rewrite H. reflexivity.
  - rewrite H, H0. reflexivity.
Qed.

Lemma isActive_same_configuration T r r' :
  activeConfiguration r' = activeConfiguration r ->
  deepIsActive T r' = deepIsActive T r.
Proof.
  intros E. rewrite <- (proj1 (deepIsActive_configuration T) r'),
                    <- (proj1 (deepIsActive_configuration T) r).
  congruence.
Qed.

(** ** The resolution loop *)

Lemma count_nonneg {T} (v : ArrayView T) : 0 <= View.count v.
Proof. unfold View.count. lia. Qed.

Lemma forwardSubstitute_round apex (e : Env) apex' e' :
  deepForwardSubstitute user apex e = Some (apex', e') ->
  apex' = apex /\
  exists guards,
    trace e' = trace e ++ guards /\
    Forall (records [LoggerInterface.Substitute]) guards /\
    (length guards <= states apex)%nat /\
    _logger e' = option_map (fun l => l ++ guards) (_logger e) /\
    _capacity (_requests e') = _capacity (_requests e) /\
    (View.count (_requests e) <= _capacity (_requests e) ->
     View.count (_requests e') <= _capacity (_requests e')).
Proof.
  intros E. split; [eapply deepForwardSubstitute_same; eauto |].
  pose proof (proj1 deepForwardSubstitute_steps _ _ _ _ E) as ((d & T & F & L) & C & B).
  pose proof (proj1 deepForwardSubstitute_grows _ _ _ _ E) as (d' & T' & L').
  assert (d' = d) by (eapply app_inv_head; rewrite <- T, <- T'; reflexivity).
  subst d'. exists d. repeat split; assumption.
Qed.

Lemma substitutionLoop_spec budget :
  forall counter pre apex (e : Env) apex' n res e',
    substitutionLoop user budget counter pre apex e = Some ((apex', n, res), e') ->
    exists guards applied,
      trace e' = trace e ++ guards ++ applied /\
      Forall (records [LoggerInterface.Substitute]) guards /\
      Forall (records [LoggerInterface.Leave; LoggerInterface.Enter]) applied /\
      (counter <= n <= counter + budget)%nat /\
      (length guards <= (n - counter) * states apex)%nat /\
      _capacity (_requests e') = _capacity (_requests e) /\
      (View.count (_requests e) <= _capacity (_requests e) ->
       View.count (_requests e') <= _capacity (_requests e')) /\
      match res with
      | Overflowed =>
          n = (counter + budget)%nat /\ applied = [] /\
          apex' = pre /\
          _items (_requests e') = [] /\
          _logger e' = option_map (fun l => l ++ guards) (_logger e)
      | Applied =>
          _logger e' = option_map (fun l => l ++ guards ++ applied) (_logger e)
      end.
Proof.
  induction budget as [| budget IH]; intros counter pre apex e apex' n res e' E;
    cbn [substitutionLoop] in E;
    destruct (_items (_requests e)) as [| request rest] eqn:Q.
  - (* nothing pending: apply *)
    monad_inv.
    pose proof (proj1 deepChangeToRequested_steps _ _ _ _ H) as ((d & T & F & L) & C & B).
    exists [], d. simpl. repeat split; auto; try lia.
  - (* pending, and no budget left: overflow *)
    inversion E; subst; clear E.
    exists [], []. simpl. rewrite app_nil_r.
    repeat split; auto; try lia.
    all: try (destruct (_logger e); simpl; [rewrite app_nil_r |]; reflexivity).
    intros Hb. pose proof (count_nonneg (_requests e)).
    unfold View.count in *. simpl. lia.
  - monad_inv.
    pose proof (proj1 deepChangeToRequested_steps _ _ _ _ H) as ((d & T & F & L) & C & B).
    exists [], d. simpl. repeat split; auto; try lia.
  - destruct (handleRequests (request :: rest) apex) as [apex1 |] eqn:HR; [| discriminate].
    destruct (deepForwardSubstitute user apex1 _) as [[apex2 e2] |] eqn:FS; [| discriminate].
    apply forwardSubstitute_round in FS.
    destruct FS as (-> & g1 & T1 & F1 & L1 & Lg1 & C1 & B1).
    apply IH in E.
    destruct E as (g2 & a2 & T2 & F2 & Fa2 & Hn & Lg2 & C2 & B2 & Hres).
    pose proof (handleRequests_keeps _ _ _ HR) as KA.
    pose proof (states_same_configuration _ _ KA) as ST.
    simpl in T1, Lg1, C1, B1.
    exists (g1 ++ g2), a2. repeat split.
    + rewrite T2, T1, <- !app_assoc. reflexivity.
    + apply Forall_app; auto.
    + assumption.
    + lia.
    + lia.
    + rewrite length_app.
      replace (n - counter)%nat with (S (n - S counter)) by lia.
      simpl. rewrite ST in *. lia.
    + congruence.
    + intros Hb. apply B2, B1.
      pose proof (count_nonneg (_requests e)). unfold View.count in *. simpl. lia.
    + destruct res.
      * rewrite Hres, Lg1. destruct (_logger e); simpl; [| reflexivity].
        rewrite <- !app_assoc. reflexivity.
      * destruct Hres as (-> & -> & KA2 & I2 & Lg).
        repeat split; auto; try lia; try congruence.
        rewrite Lg, Lg1. destruct (_logger e); simpl; [| reflexivity].
        rewrite <- !app_assoc. reflexivity.
Qed.

(** ** Counting records *)

Lemma countMethod_app m l1 l2 :
  countMethod m (l1 ++ l2) = (countMethod m l1 + countMethod m l2)%nat.
Proof. unfold countMethod. rewrite filter_app, length_app. reflexivity. Qed.

Lemma Method_eqb_eq a b : LoggerInterface.Method_eqb a b = true <-> a = b.
Proof. destruct a, b; simpl; split; intros H; congruence. Qed.

Lemma countMethod_others ms m l :
  Forall (records ms) l -> ~ In m ms -> countMethod m l = 0%nat.
Proof.
  intros F Hm. unfold countMethod. induction F as [| i l (T & m' & -> & Hin) _ IH].
  - reflexivity.
  - simpl. destruct (LoggerInterface.Method_eqb m m') eqn:E; [| exact IH].
    apply Method_eqb_eq in E. subst. contradiction.
Qed.

Lemma countMethod_only m l :
  Forall (records [m]) l -> countMethod m l = length l.
Proof.
  intros F. unfold countMethod. induction F as [| i l (T & m' & -> & Hin) _ IH].
  - reflexivity.
  - simpl. destruct Hin as [<- | []].
    replace (LoggerInterface.Method_eqb m m) with true
      by (symmetry; apply Method_eqb_eq; reflexivity).
    simpl. rewrite IH. reflexivity.
Qed.

(** ** One tick *)

Lemma deepUpdateAndTransition_spec r (e : Env) r' b e' :
  deepUpdateAndTransition user r e = Some ((r', b), e') ->
  r' = r /\
  Steps (records [LoggerInterface.Update; LoggerInterface.Transition]) e e'.
Proof.
  unfold deepUpdateAndTransition. intros E. monad_inv.
  pose proof (proj1 deepUpdate_same _ _ _ _ H). subst.
  pose proof (proj1 deepTransition_same _ _ _ _ H1). subst.
  split; [reflexivity |].
  eapply Steps_trans.
  - eapply Steps_weaken; [| eapply (proj1 deepUpdate_steps); eauto]. records_side.
  - eapply Steps_weaken; [| eapply (proj1 deepTransition_steps); eauto]. records_side.
Qed.

Lemma tick_phases MaxSubstitutions (m m' : _R) res :
  R_update user MaxSubstitutions m = Some (m', res) ->
  exists updates guards applied n,
    trace (env m') = trace (env m) ++ updates ++ guards ++ applied /\
    Forall (records [LoggerInterface.Update; LoggerInterface.Transition]) updates /\
    Forall (records [LoggerInterface.Substitute]) guards /\
    Forall (records [LoggerInterface.Leave; LoggerInterface.Enter]) applied /\
    (n <= MaxSubstitutions)%nat /\
    (length guards <= n * states (_apex m))%nat /\
    _capacity (_requests (env m')) = _capacity (_requests (env m)) /\
    (View.count (_requests (env m)) <= _capacity (_requests (env m)) ->
     View.count (_requests (env m')) <= _capacity (_requests (env m'))) /\
    match res with
    | Overflowed =>
        n = MaxSubstitutions /\ applied = [] /\
        _apex m' = _apex m /\
        _items (_requests (env m')) = [] /\
        _logger (env m')
        = option_map (fun l => l ++ updates ++ guards) (_logger (env m))
    | Applied =>
        _logger (env m')
        = option_map (fun l => l ++ updates ++ guards ++ applied) (_logger (env m))
    end.
Proof.
  unfold R_update, processTransitions. intros E.
  destruct (bind _ _ (env m)) as [[[[apex n] res'] e'] |] eqn:B; [| discriminate].
  inversion E; subst; clear E.
  apply bind_inv in B. destruct B as ([r1 b] & e1 & U & L).
  apply deepUpdateAndTransition_spec in U.
  destruct U as (-> & (u & Tu & Fu & Lu) & Cu & Bu).
  apply substitutionLoop_spec in L. simpl in L.
  destruct L as (g & a & T & Fg & Fa & Hn & Lg & C & Bd & Hres).
  exists u, g, a, n. simpl.
  split; [rewrite T, Tu, <- !app_assoc; reflexivity |].
  do 5 (split; [auto; lia |]).
  split; [congruence |]. split; [auto |].
  destruct res.
  - rewrite Hres, Lu. destruct (_logger (env m)); simpl; [| reflexivity].
    rewrite <- !app_assoc. reflexivity.
  - destruct Hres as (-> & -> & KA & I & Lo).
    repeat split; auto.
    rewrite Lo, Lu. destruct (_logger (env m)); simpl; [| reflexivity].
    rewrite <- !app_assoc. reflexivity.
Qed.

(** ** The substitution bound *)

(** C3, as the resolution loop has it: [MaxSubstitutions] (4 by default)
    bounds the rounds of one resolution, the final counter [n], and each
    round runs the guard of a state at most once, so one resolution runs at
    most [n * states] guards; when the budget is used up with requests still
    pending the resolution halts: the queue is emptied and nothing is left or
    entered.  One tick runs at most [MaxSubstitutions * states] guards. *)
Theorem substitution_rounds_bounded MaxSubstitutions :
  TMaxSubstitutions_default = 4%nat /\
  (forall apex (e : Env) apex' n res e',
      processTransitions user MaxSubstitutions apex e = Some ((apex', n, res), e') ->
      (n <= MaxSubstitutions)%nat /\
      exists added,
        trace e' = trace e ++ added /\
        (countMethod LoggerInterface.Substitute added <= n * states apex)%nat /\
        (res = Overflowed ->
         n = MaxSubstitutions /\
         countMethod LoggerInterface.Leave added = 0%nat /\
         countMethod LoggerInterface.Enter added = 0%nat /\
         _items (_requests e') = [])) /\
  (forall (m m' : _R) res,
      R_update user MaxSubstitutions m = Some (m', res) ->
      exists added,
        trace (env m') = trace (env m) ++ added /\
        (countMethod LoggerInterface.Substitute added
         <= MaxSubstitutions * states (_apex m))%nat).
Proof.
  split; [reflexivity |]. split.
  - intros apex e apex' n res e' E. unfold processTransitions in E.
    apply substitutionLoop_spec in E.
    destruct E as (g & a & T & Fg & Fa & Hn & Lg & _ & _ & Hres).
    split; [lia |]. exists (g ++ a). split; [exact T |]. split.
    + rewrite countMethod_app, (countMethod_only _ _ Fg).
      rewrite (countMethod_others _ LoggerInterface.Substitute _ Fa)
        by (simpl; intros [H | [H | []]]; discriminate).
      rewrite Nat.sub_0_r in Lg. lia.
    + intros ->. destruct Hres as (-> & -> & _ & I & _).
      rewrite app_nil_r. repeat split; auto.
      * apply (countMethod_others _ _ _ Fg). simpl. intros [H | []]; discriminate.
      * apply (countMethod_others _ _ _ Fg). simpl. intros [H | []]; discriminate.
  - intros m m' res E. apply tick_phases in E.
    destruct E as (u & g & a & n & T & Fu & Fg & Fa & Hn & Lg & _).
    exists (u ++ g ++ a). split; [exact T |].
    rewrite !countMethod_app, (countMethod_only _ _ Fg).
    rewrite (countMethod_others _ LoggerInterface.Substitute _ Fu)
      by (simpl; intros [H | [H | []]]; discriminate).
    rewrite (countMethod_others _ LoggerInterface.Substitute _ Fa)
      by (simpl; intros [H | [H | []]]; discriminate).
    simpl. rewrite Nat.add_0_r.
    eapply Nat.le_trans; [exact Lg |]. apply Nat.mul_le_mono_r. exact Hn.
Qed.

(** ** Overflow *)


(** ** Ordering within a tick *)

Lemma switch_leaves_then_enters f h subs (e : Env) r' e' :
  deepChangeToRequested user (_C f h subs) e = Some (r', e') ->
  requested f <> INVALID_INDEX ->
  requested f <> active f ->
  exists left entered,
    trace e' = trace e ++ left ++ entered /\
    Forall (records [LoggerInterface.Leave]) left /\
    Forall (records [LoggerInterface.Enter]) entered.
Proof.
  intros E Hreq Hact. cbn [deepChangeToRequested] in E.
  destruct (Z.eqb_spec (requested f) INVALID_INDEX); [contradiction |].
  destruct (Z.eqb_spec (requested f) (active f)); [contradiction |].
  monad_inv.
  pose proof (proj2 (proj2 (proj2 deepLeave_steps subs)) _ _ _ _ _ H)
    as ((l & Tl & Fl & _) & _).
  pose proof (proj2 (proj2 (proj2 deepEnter_steps x)) _ _ _ _ _ H0)
    as ((en & Te & Fe & _) & _).
  exists l, en. split; [| split; assumption].
  rewrite Te, Tl, app_assoc. reflexivity.
Qed.

(** C6, as the engine orders a tick: the history of a tick is its updates
    and transitions, then the guards ([substitute]) of its resolution, then
    the leaves and enters of the apply point, so every [update] completes
    before any [substitute], [leave] or [enter], and every [substitute]
    before any [leave] or [enter]; and a composite that switches prongs
    completes the leaves of the old prong before the first enter of the new
    one. *)
Theorem tick_is_ordered MaxSubstitutions :
  (forall (m m' : _R) res,
      R_update user MaxSubstitutions m = Some (m', res) ->
      exists updates guards applied,
        trace (env m') = trace (env m) ++ updates ++ guards ++ applied /\
        Forall (records [LoggerInterface.Update; LoggerInterface.Transition]) updates /\
        Forall (records [LoggerInterface.Substitute]) guards /\
        Forall (records [LoggerInterface.Leave; LoggerInterface.Enter]) applied) /\
  (forall f h subs (e : Env) r' e',
      deepChangeToRequested user (_C f h subs) e = Some (r', e') ->
      requested f <> INVALID_INDEX ->
      requested f <> active f ->
      exists left entered,
        trace e' = trace e ++ left ++ entered /\
        Forall (records [LoggerInterface.Leave]) left /\
        Forall (records [LoggerInterface.Enter]) entered).
Proof.
  split.
  - intros m m' res E. apply tick_phases in E.
    destruct E as (u & g & a & n & T & Fu & Fg & Fa & _).
    exists u, g, a. auto.
  - apply switch_leaves_then_enters.
Qed.

(** ** Exclusivity *)

Lemma head_isActive T r : head r = T -> deepIsActive T r = true.
Proof.
  intros <-. destruct r; simpl; rewrite Nat.eqb_refl; reflexivity.
Qed.

Lemma Sub_nth_ge p : forall s TN c, Sub_nth p TN s = Some c -> TN <= p.
Proof.
  induction s as [i | i r IH]; simpl; intros TN c E.
  - destruct (Z.eqb_spec p TN); [lia | discriminate].
  - destruct (Z.eqb_spec p TN); [lia |]. apply IH in E. lia.
Qed.

Lemma wideIsActive_found T p : forall s TN c,
  Sub_nth p TN s = Some c -> deepIsActive T c = true ->
  wideIsActive T (Some p) TN s = true /\ wideIsActive T None TN s = true.
Proof.
  induction s as [i | i r IH]; simpl; intros TN c E A.
  - destruct (p =? TN); [| discriminate]. inversion E; subst.
    rewrite A. auto.
  - destruct (p =? TN).
    + inversion E; subst. rewrite A. auto.
    + destruct (IH _ _ E A) as (-> & ->). rewrite !orb_true_r. auto.
Qed.

Lemma activePath_isActive T : forall path r x,
  subRegion path r = Some x -> head x = T -> activePath path r = true ->
  deepIsActive T r = true.
Proof.
  induction path as [| p rest IH]; simpl; intros r x S H A.
  - inversion S; subst. apply head_isActive. reflexivity.
  - destruct r as [h | f h subs | f h subs]; simpl in *; try discriminate.
    + apply andb_true_iff in A. destruct A as (Act & A).
      apply Z.eqb_eq in Act.
      destruct (Sub_nth p 0 subs) as [c |] eqn:N; [| discriminate].
      rewrite Act. rewrite (proj1 (wideIsActive_found T p _ _ _ N (IH _ _ S H A))).
      apply orb_true_r.
    + destruct (Sub_nth p 0 subs) as [c |] eqn:N; [| discriminate].
      rewrite (proj2 (wideIsActive_found T p _ _ _ N (IH _ _ S H A))).
      apply orb_true_r.
Qed.

Lemma isActive_activePath T :
  (forall r, deepIsActive T r = true ->
             exists path x, subRegion path r = Some x /\ head x = T /\
                            activePath path r = true) /\
  (forall s sel TN, wideIsActive T sel TN s = true ->
             exists p c path x,
               Sub_nth p TN s = Some c /\ (forall q, sel = Some q -> q = p) /\
               subRegion path c = Some x /\ head x = T /\
               activePath path c = true).
Proof.
  apply Region_mutind.
  - intros h A. simpl in A. apply Nat.eqb_eq in A.
    exists [], (_S h). simpl. auto.
  - intros f h subs IH A. simpl in A. apply orb_true_iff in A. destruct A as [A | A].
    + apply Nat.eqb_eq in A. exists [], (_C f h subs). simpl. auto.
    + apply IH in A. destruct A as (p & c & path & x & N & Sel & S & H & A).
      exists (p :: path), x. simpl. rewrite N.
      rewrite (Sel _ eq_refl), Z.eqb_refl. simpl. auto.
  - intros f h subs IH A. simpl in A. apply orb_true_iff in A. destruct A as [A | A].
    + apply Nat.eqb_eq in A. exists [], (_O f h subs). simpl. auto.
    + apply IH in A. destruct A as (p & c & path & x & N & Sel & S & H & A).
      exists (p :: path), x. simpl. rewrite N. auto.
  - intros i IH sel TN A. simpl in A. destruct sel as [q |].
    + apply andb_true_iff in A. destruct A as (E & A). apply Z.eqb_eq in E.
      apply IH in A. destruct A as (path & x & S & H & A).
      exists TN, i, path, x. simpl. rewrite Z.eqb_refl.
      repeat split; auto. intros q' Q. inversion Q; subst. reflexivity.
    + apply IH in A. destruct A as (path & x & S & H & A).
      exists TN, i, path, x. simpl. rewrite Z.eqb_refl.
      repeat split; auto. intros q' Q. discriminate.
  - intros i IHi r IHr sel TN A. simpl in A.
    apply orb_true_iff in A. destruct A as [A | A].
    + destruct sel as [q |].
      * apply andb_true_iff in A. destruct A as (E & A). apply Z.eqb_eq in E.
        apply IHi in A. destruct A as (path & x & S & H & A).
        exists TN, i, path, x. simpl. rewrite Z.eqb_refl.
        repeat split; auto. intros q' Q. inversion Q; subst. reflexivity.
      * apply IHi in A. destruct A as (path & x & S & H & A).
        exists TN, i, path, x. simpl. rewrite Z.eqb_refl.
        repeat split; auto. intros q' Q. discriminate.
    + apply IHr in A. destruct A as (p & c & path & x & N & Sel & S & H & A).
      exists p, c, path, x. simpl.
      pose proof (Sub_nth_ge _ _ _ _ N).
      destruct (Z.eqb_spec p TN); [lia |]. auto.
Qed.

Lemma activePath_one_prong : forall path r f h subs p q,
  subRegion path r = Some (_C f h subs) ->
  activePath (path ++ [p]) r = true ->
  activePath (path ++ [q]) r = true ->
  p = q.
Proof.
  induction path as [| a rest IH]; simpl; intros r f h subs p q S Ap Aq.
  - inversion S; subst. simpl in *.
    apply andb_true_iff in Ap, Aq. destruct Ap as (Ep & _), Aq as (Eq & _).
    apply Z.eqb_eq in Ep, Eq. congruence.
  - destruct r as [h0 | f0 h0 subs0 | f0 h0 subs0]; simpl in *; try discriminate.
    + apply andb_true_iff in Ap, Aq. destruct Ap as (_ & Ap), Aq as (_ & Aq).
      destruct (Sub_nth a 0 subs0) as [c |]; [| discriminate]. eauto.
    + destruct (Sub_nth a 0 subs0) as [c |]; [| discriminate]. eauto.
Qed.

Lemma activePath_below_inactive : forall path r p,
  activePath path r = false -> activePath (path ++ [p]) r = false.
Proof.
  induction path as [| a rest IH]; simpl; intros r p A.
  - discriminate.
  - destruct r as [h0 | f0 h0 subs0 | f0 h0 subs0]; simpl in *; auto.
    + destruct (active f0 =? a); simpl in *; [| reflexivity].
      destruct (Sub_nth a 0 subs0) as [c |]; auto.
    + destruct (Sub_nth a 0 subs0) as [c |]; auto.
Qed.

(** ** The fork records agree with what is active *)

Lemma Sub_Width_pos s : 1 <= Sub_Width s.
Proof. induction s as [i | i r IH]; cbn [Sub_Width]; lia. Qed.

Lemma wideAt_Width (deep : Region -> @M TContext Region) s :
  forall p TN (e : Env) s' e',
    wideAt deep p TN s e = Some (s', e') -> Sub_Width s' = Sub_Width s.
Proof.
  induction s as [i | i r IH]; intros p TN e s' e' E; cbn [wideAt] in E;
    destruct (p =? TN); monad_inv; simpl; try reflexivity.
  erewrite IH; eauto.
Qed.

Lemma wideMapAt_Width (deep : Region -> Region) s :
  forall p TN, Sub_Width (wideMapAt deep p TN s) = Sub_Width s.
Proof.
  induction s as [i | i r IH]; intros p TN; simpl;
    destruct (p =? TN); simpl; try reflexivity.
  rewrite IH. reflexivity.
Qed.

Lemma Sub_consistent_ext s : forall sel sel' TN,
  (forall k, TN <= k -> sel' k = sel k) ->
  Sub_consistent sel' TN s = Sub_consistent sel TN s.
Proof.
  induction s as [i | i r IH]; intros sel sel' TN H; simpl.
  - rewrite H by lia. reflexivity.
  - rewrite H by lia. rewrite (IH sel sel' (TN + 1)); [reflexivity |].
    intros k Hk. apply H. lia.
Qed.

Lemma wideAt_consistent (deep : Region -> @M TContext Region) b b' s :
  Sub_Forall (deepTurns deep b b') s ->
  forall sel sel' p TN (e : Env) s' e',
    wideAt deep p TN s e = Some (s', e') ->
    sel p = b -> sel' p = b' ->
    (forall k, k <> p -> sel' k = sel k) ->
    Sub_consistent sel TN s = true ->
    Sub_consistent sel' TN s' = true.
Proof.
  induction s as [i | i r IH]; intros F sel sel' p TN e s' e' E Hp Hp' Hk C;
    subst b b'; cbn [wideAt] in E; simpl in F, C.
  - destruct (Z.eqb_spec p TN) as [-> | N]; monad_inv; simpl.
    + eapply F; eauto.
    + rewrite Hk by congruence. exact C.
  - destruct F as (Fi & Fr). apply andb_true_iff in C. destruct C as (Ci & Cr).
    destruct (Z.eqb_spec p TN) as [-> | N]; monad_inv; simpl;
      apply andb_true_iff; split.
    + eapply Fi; eauto.
    + rewrite (Sub_consistent_ext r sel sel'); [exact Cr |].
      intros k Hk'. apply Hk. lia.
    + rewrite Hk by congruence. exact Ci.
    + eapply IH; eauto.
Qed.

Lemma wideAll_consistent (deep : Region -> @M TContext Region) b b' s :
  Sub_Forall (deepTurns deep b b') s ->
  forall TN (e : Env) s' e',
    (wideAll deep s e = Some (s', e') \/ wideAllReverse deep s e = Some (s', e')) ->
    Sub_consistent (fun _ => b) TN s = true ->
    Sub_consistent (fun _ => b') TN s' = true.
Proof.
  induction s as [i | i r IH]; intros F TN e s' e' E C;
    cbn [wideAll wideAllReverse] in E; simpl in F, C.
  - destruct E as [E | E]; monad_inv; simpl; eapply F; eauto.
  - destruct F as (Fi & Fr). apply andb_true_iff in C. destruct C as (Ci & Cr).
    destruct E as [E | E]; monad_inv; simpl; apply andb_true_iff; split;
      try (eapply Fi; eauto); eapply IH; eauto.
Qed.

Lemma wideAll_Width (deep : Region -> @M TContext Region) s :
  forall (e : Env) s' e',
    (wideAll deep s e = Some (s', e') \/ wideAllReverse deep s e = Some (s', e')) ->
    Sub_Width s' = Sub_Width s.
Proof.
  induction s as [i | i r IH]; intros e s' e' E; cbn [wideAll wideAllReverse] in E;
    destruct E as [E | E]; monad_inv; simpl; try reflexivity;
    erewrite IH; eauto.
Qed.

Ltac bool_hyps :=
  repeat match goal with
    | H : _ && _ = true |- _ =>
        let H1 := fresh H in
        apply andb_true_iff in H; destruct H as (H & H1)
    end.

Ltac width_kept :=
  repeat match goal with
    | H : wideAt _ _ _ _ _ = Some (?s', _) |- _ =>
        lazymatch goal with
        | _ : Sub_Width s' = _ |- _ => fail
        | _ => pose proof (wideAt_Width _ _ _ _ _ _ _ H)
        end
    end.

Lemma deepSame_turns (deep : Region -> @M TContext Region) b :
  (forall r, deepSame deep r) -> forall r, deepTurns deep b b r.
Proof. intros S r e r' e' E C. apply S in E. subst. exact C. Qed.

Lemma deepEnterInitial_turns r : deepTurns (deepEnterInitial user) false true r.
Proof.
  revert r.
  enough (H : (forall r, deepTurns (deepEnterInitial user) false true r) /\
              (forall s, Sub_Forall (deepTurns (deepEnterInitial user) false true) s))
    by apply H.
  apply Region_mutind.
  - intros h e r' e' E C. cbn [deepEnterInitial] in E. monad_inv. reflexivity.
  - intros f h subs F e r' e' E C. cbn [deepEnterInitial] in E. monad_inv.
    cbn [consistent] in C |- *. simpl. bool_hyps.
    width_kept.
    match goal with W : Sub_Width _ = _ |- _ => rewrite W end.
    pose proof (Sub_Width_pos subs).
    repeat (apply andb_true_iff; split); try assumption.
    + destruct (Z.ltb_spec 0 (Sub_Width subs)); [reflexivity | lia].
    + eapply (wideAt_consistent _ false true subs F
                (fun k => false && (active f =? k)) (fun k => 0 =? k));
        eauto.
      intros k Hk. destruct (Z.eqb_spec 0 k); [congruence | reflexivity].
  - intros f h subs F e r' e' E C. cbn [deepEnterInitial] in E. monad_inv.
    cbn [consistent] in C |- *.
    eapply (wideAll_consistent _ false true subs F); eauto.
  - intros i Hi. exact Hi.
  - intros i Hi r Hr. split; assumption.
Qed.

Lemma deepEnter_turns r : deepTurns (deepEnter user) false true r.
Proof.
  revert r.
  enough (H : (forall r, deepTurns (deepEnter user) false true r) /\
              (forall s, Sub_Forall (deepTurns (deepEnter user) false true) s))
    by apply H.
  apply Region_mutind.
  - intros h e r' e' E C. cbn [deepEnter] in E. monad_inv. reflexivity.
  - intros f h subs F e r' e' E C. cbn [deepEnter] in E. monad_inv.
    cbn [consistent] in C |- *. simpl. bool_hyps.
    width_kept.
    match goal with W : Sub_Width _ = _ |- _ => rewrite W end.
    repeat (apply andb_true_iff; split); try assumption; try reflexivity.
    eapply (wideAt_consistent _ false true subs F
              (fun k => false && (active f =? k)) (fun k => requested f =? k));
      eauto.
    + apply Z.eqb_refl.
    + intros k Hk. destruct (Z.eqb_spec (requested f) k); [congruence | reflexivity].
  - intros f h subs F e r' e' E C. cbn [deepEnter] in E. monad_inv.
    cbn [consistent] in C |- *.
    eapply (wideAll_consistent _ false true subs F); eauto.
  - intros i Hi. exact Hi.
  - intros i Hi r Hr. split; assumption.
Qed.

Lemma Sub_Forall_all (Q : Region -> Prop) s : (forall r, Q r) -> Sub_Forall Q s.
Proof. intros H. induction s as [i | i r IH]; simpl; auto. Qed.

Lemma validMark_range W x :
  validMark W x = true -> x <> INVALID_INDEX -> (0 <=? x) && (x <? W) = true.
Proof.
  unfold validMark. intros H N.
  destruct (Z.eqb_spec x INVALID_INDEX); [contradiction | exact H].
Qed.

Lemma range_validMark W x : (0 <=? x) && (x <? W) = true -> validMark W x = true.
Proof. unfold validMark. intros ->. apply orb_true_r. Qed.

Lemma deepLeave_turns r : deepTurns (deepLeave user) true false r.
Proof.
  revert r.
  enough (H : (forall r, deepTurns (deepLeave user) true false r) /\
              (forall s, Sub_Forall (deepTurns (deepLeave user) true false) s))
    by apply H.
  apply Region_mutind.
  - intros h e r' e' E C. cbn [deepLeave] in E. monad_inv. reflexivity.
  - intros f h subs F e r' e' E C. cbn [deepLeave] in E. monad_inv.
    cbn [consistent] in C |- *. simpl.
    apply andb_true_iff in C. destruct C as (C & C0).
    apply andb_true_iff in C. destruct C as (C & C1).
    apply andb_true_iff in C. destruct C as (C & C2).
    width_kept.
    match goal with W : Sub_Width _ = _ |- _ => rewrite W end.
    repeat (apply andb_true_iff; split); try assumption; try reflexivity.
    + apply range_validMark. exact C.
    + eapply (wideAt_consistent _ true false subs F
                (fun k => true && (active f =? k)) (fun _ => false));
        eauto.
      * simpl. apply Z.eqb_refl.
      * intros k Hk. simpl. destruct (Z.eqb_spec (active f) k); [congruence | reflexivity].
  - intros f h subs F e r' e' E C. cbn [deepLeave] in E. monad_inv.
    cbn [consistent] in C |- *.
    eapply (wideAll_consistent _ true false subs F); eauto.
  - intros i Hi. exact Hi.
  - intros i Hi r Hr. split; assumption.
Qed.

Lemma deepChangeToRequested_turns r :
  deepTurns (deepChangeToRequested user) true true r.
Proof.
  revert r.
  enough (H : (forall r, deepTurns (deepChangeToRequested user) true true r) /\
              (forall s, Sub_Forall (deepTurns (deepChangeToRequested user) true true) s))
    by apply H.
  apply Region_mutind.
  - intros h e r' e' E C. cbn [deepChangeToRequested] in E. monad_inv. reflexivity.
  - intros f h subs F e r' e' E C. cbn [deepChangeToRequested] in E.
    cbn [consistent] in C.
    apply andb_true_iff in C. destruct C as (C & C0).
    apply andb_true_iff in C. destruct C as (C & C1).
    apply andb_true_iff in C. destruct C as (C & C2).
    pose proof C as Cr. apply andb_true_iff in Cr. destruct Cr as (Cr1 & Cr2).
    destruct (Z.eqb_spec (requested f) INVALID_INDEX) as [RI | RI];
      [| destruct (Z.eqb_spec (requested f) (active f)) as [RA | RA]];
      monad_inv; cbn [consistent]; simpl; width_kept.
    + match goal with W : Sub_Width _ = _ |- _ => rewrite W end.
      repeat (apply andb_true_iff; split); try assumption.
      eapply (wideAt_consistent _ true true subs F
                (fun k => true && (active f =? k))
                (fun k => true && (active f =? k))); eauto;
        try (intros; reflexivity); simpl; apply Z.eqb_refl.
    + match goal with W : Sub_Width _ = _ |- _ => rewrite W end.
      repeat (apply andb_true_iff; split); try assumption; try reflexivity.
      eapply (wideAt_consistent _ true true subs F
                (fun k => true && (active f =? k))
                (fun k => true && (active f =? k))); eauto;
        try (intros; reflexivity); simpl; apply Z.eqb_refl.
    + repeat match goal with W : Sub_Width _ = _ |- _ => rewrite W; clear W end.
      pose proof (validMark_range _ _ C2 RI) as RR.
      apply andb_true_iff in RR. destruct RR as (RR1 & RR2).
      repeat (apply andb_true_iff; split); try assumption; try reflexivity.
      * apply range_validMark. exact C.
      * match goal with
        | L : wideAt (deepLeave user) _ _ _ _ = Some _,
          N : wideAt (deepEnter user) _ _ _ _ = Some _ |- _ =>
            eapply (wideAt_consistent _ false true _
                      (Sub_Forall_all _ _ deepEnter_turns)
                      (fun _ => false) (fun k => requested f =? k) _ _ _ _ _ N);
            [reflexivity | apply Z.eqb_refl | |
             eapply (wideAt_consistent _ true false subs
                       (Sub_Forall_all _ _ deepLeave_turns)
                       (fun k => true && (active f =? k)) (fun _ => false)
                       _ _ _ _ _ L); eauto ]
        end.
        -- intros k Hk. destruct (Z.eqb_spec (requested f) k); [congruence | reflexivity].
        -- simpl. apply Z.eqb_refl.
        -- intros k Hk. simpl.
           destruct (Z.eqb_spec (active f) k); [congruence | reflexivity].
  - intros f h subs F e r' e' E C. cbn [deepChangeToRequested] in E. monad_inv.
    cbn [consistent] in C |- *.
    eapply (wideAll_consistent _ true true subs F); eauto.
  - intros i Hi. exact Hi.
  - intros i Hi r Hr. split; assumption.
Qed.

Lemma wideMapAt_consistent (deep : Region -> Region) s :
  Sub_Forall (keepsConsistent deep) s ->
  forall sel p TN,
    Sub_consistent sel TN s = true ->
    Sub_consistent sel TN (wideMapAt deep p TN s) = true.
Proof.
  induction s as [i | i r IH]; intros F sel p TN C; simpl in *.
  - destruct (p =? TN); simpl; [apply F |]; exact C.
  - destruct F as (Fi & Fr). apply andb_true_iff in C. destruct C as (Ci & Cr).
    destruct (p =? TN); simpl; apply andb_true_iff; split; auto.
Qed.

Lemma wideMapAll_Width (deep : Region -> Region) s :
  Sub_Width (wideMapAll deep s) = Sub_Width s.
Proof. induction s as [i | i r IH]; simpl; [| rewrite IH]; reflexivity. Qed.

Lemma wideMapAll_consistent (deep : Region -> Region) s :
  Sub_Forall (keepsConsistent deep) s ->
  forall sel TN,
    Sub_consistent sel TN s = true ->
    Sub_consistent sel TN (wideMapAll deep s) = true.
Proof.
  induction s as [i | i r IH]; intros F sel TN C; simpl in *.
  - apply F. exact C.
  - destruct F as (Fi & Fr). apply andb_true_iff in C. destruct C as (Ci & Cr).
    apply andb_true_iff; split; auto.
Qed.

Lemma prongOf_range T s : forall TN p,
  prongOf T TN s = Some p -> TN <= p < TN + Sub_Width s.
Proof.
  induction s as [i | i r IH]; intros TN p E; cbn [prongOf Sub_Width] in *.
  - destruct (contains T i); inversion E; subst. lia.
  - pose proof (Sub_Width_pos r).
    destruct (contains T i); [inversion E; subst; lia |].
    apply IH in E. lia.
Qed.

Lemma toIndex_validMark W p : 0 <= p < W -> validMark W (toIndex p) = true.
Proof.
  intros H. apply range_validMark. unfold toIndex.
  pose proof (Z.mod_pos_bound p 256 ltac:(lia)).
  pose proof (Z.mod_le p 256 ltac:(lia) ltac:(lia)).
  apply andb_true_iff. split; [apply Z.leb_le | apply Z.ltb_lt]; lia.
Qed.

Lemma zero_validMark s : validMark (Sub_Width s) 0 = true.
Proof.
  pose proof (Sub_Width_pos s). apply range_validMark.
  apply andb_true_iff. split; [apply Z.leb_le | apply Z.ltb_lt]; lia.
Qed.

Ltac marks_split :=
  match goal with
  | C : consistent ?b (_C _ _ _) = true |- _ =>
      cbn [consistent] in C;
      apply andb_true_iff in C; destruct C as (C & ?C0);
      apply andb_true_iff in C; destruct C as (C & ?C1);
      apply andb_true_iff in C; destruct C as (C & ?C2)
  end.

Lemma deepRequestRestart_consistent r : keepsConsistent deepRequestRestart r.
Proof.
  revert r.
  enough (H : (forall r, keepsConsistent deepRequestRestart r) /\
              (forall s, Sub_Forall (keepsConsistent deepRequestRestart) s))
    by apply H.
  apply Region_mutind.
  - intros h b C. exact C.
  - intros f h subs F b C. marks_split.
    cbn [deepRequestRestart consistent]. simpl.
    rewrite wideMapAt_Width, C, C1, zero_validMark. simpl.
    apply wideMapAt_consistent; assumption.
  - intros f h subs F b C. cbn [deepRequestRestart consistent] in *.
    apply wideMapAll_consistent; assumption.
  - intros i Hi. exact Hi.
  - intros i Hi r Hr. split; assumption.
Qed.

Lemma resumed_validMark s f :
  validMark (Sub_Width s) (resumable f) = true ->
  validMark (Sub_Width s) (resumed f) = true.
Proof.
  intros H. unfold resumed.
  destruct (resumable f =? INVALID_INDEX); [apply zero_validMark | exact H].
Qed.

Lemma deepRequestResume_consistent r : keepsConsistent deepRequestResume r.
Proof.
  revert r.
  enough (H : (forall r, keepsConsistent deepRequestResume r) /\
              (forall s, Sub_Forall (keepsConsistent deepRequestResume) s))
    by apply H.
  apply Region_mutind.
  - intros h b C. exact C.
  - intros f h subs F b C. marks_split.
    cbn [deepRequestResume consistent]. simpl.
    rewrite wideMapAt_Width, C, C1, (resumed_validMark _ _ C1). simpl.
    apply wideMapAt_consistent; assumption.
  - intros f h subs F b C. cbn [deepRequestResume consistent] in *.
    apply wideMapAll_consistent; assumption.
  - intros i Hi. exact Hi.
  - intros i Hi r Hr. split; assumption.
Qed.

Lemma onTarget_consistent kind r : keepsConsistent (onTarget kind) r.
Proof.
  intros b C. destruct kind; simpl; try exact C.
  - apply deepRequestRestart_consistent. exact C.
  - apply deepRequestResume_consistent. exact C.
Qed.

Lemma deepRequest_consistent kind T r : keepsConsistent (deepRequest kind T) r.
Proof.
  revert r.
  enough (H : (forall r, keepsConsistent (deepRequest kind T) r) /\
              (forall s, Sub_Forall (keepsConsistent (deepRequest kind T)) s))
    by apply H.
  apply Region_mutind.
  - intros h b C. exact C.
  - intros f h subs F b C. cbn [deepRequest].
    destruct (Nat.eqb h T); [apply onTarget_consistent; exact C |].
    destruct (prongOf T 0 subs) as [p |] eqn:P; [| exact C].
    apply prongOf_range in P. marks_split.
    cbn [consistent]. rewrite wideMapAt_Width.
    assert (V : validMark (Sub_Width subs) (toIndex p) = true)
      by (apply toIndex_validMark; lia).
    destruct kind; simpl; rewrite C, ?C1, ?C2, ?V; simpl;
      apply wideMapAt_consistent; assumption.
  - intros f h subs F b C. cbn [deepRequest].
    destruct (Nat.eqb h T); [apply onTarget_consistent; exact C |].
    destruct (prongOf T 0 subs) as [p |] eqn:P; [| exact C].
    cbn [consistent] in *. apply wideMapAt_consistent; assumption.
  - intros i Hi. exact Hi.
  - intros i Hi r Hr. split; assumption.
Qed.

Lemma handleRequests_consistent pending : forall apex apex' b,
  handleRequests pending apex = Some apex' ->
  consistent b apex = true -> consistent b apex' = true.
Proof.
  induction pending as [| request rest IH]; intros apex apex' b E C; simpl in E.
  - inversion E; subst. exact C.
  - unfold handleRequest in E.
    destruct (contains _ apex); [| discriminate].
    eapply IH; [exact E |]. apply deepRequest_consistent. exact C.
Qed.

Lemma substitutionLoop_consistent budget :
  forall counter pre apex (e : Env) apex' n res e',
    substitutionLoop user budget counter pre apex e = Some ((apex', n, res), e') ->
    consistent true pre = true -> consistent true apex = true ->
    consistent true apex' = true.
Proof.
  induction budget as [| budget IH]; intros counter pre apex e apex' n res e' E Cp Ca;
    cbn [substitutionLoop] in E;
    destruct (_items (_requests e)) as [| request rest] eqn:Q.
  - monad_inv. eapply deepChangeToRequested_turns; eauto.
  - inversion E; subst. exact Cp.
  - monad_inv. eapply deepChangeToRequested_turns; eauto.
  - destruct (handleRequests (request :: rest) apex) as [apex1 |] eqn:HR; [| discriminate].
    destruct (deepForwardSubstitute user apex1 _) as [[apex2 e2] |] eqn:FS; [| discriminate].
    pose proof (proj1 deepForwardSubstitute_same _ _ _ _ FS). subst apex2.
    eapply IH; [exact E | exact Cp |].
    eapply handleRequests_consistent; eauto.
Qed.

Lemma R_update_consistent MaxSubstitutions (m m' : _R) res :
  consistent true (_apex m) = true ->
  R_update user MaxSubstitutions m = Some (m', res) ->
  consistent true (_apex m') = true.
Proof.
  unfold R_update, processTransitions. intros C E.
  destruct (bind _ _ (env m)) as [[[[apex n] res'] e'] |] eqn:B; [| discriminate].
  inversion E; subst; clear E. simpl.
  apply bind_inv in B. destruct B as ([r1 b] & e1 & U & L).
  apply deepUpdateAndTransition_spec in U. destruct U as (-> & _).
  simpl in L. eapply substitutionLoop_consistent; eauto.
Qed.

Lemma R_react_consistent MaxSubstitutions ev (m m' : _R) res :
  consistent true (_apex m) = true ->
  R_react user MaxSubstitutions ev m = Some (m', res) ->
  consistent true (_apex m') = true.
Proof.
  unfold R_react, processTransitions. intros C E.
  destruct (bind _ _ (env m)) as [[[[apex n] res'] e'] |] eqn:B; [| discriminate].
  inversion E; subst; clear E. simpl.
  apply bind_inv in B. destruct B as (r1 & e1 & U & L).
  pose proof (proj1 (deepReact_same ev) _ _ _ _ U). subst r1.
  eapply substitutionLoop_consistent; eauto.
Qed.

Lemma R_ctor_consistent MaxSubstitutions Apex context logger (m : _R) :
  consistent false Apex = true ->
  R_ctor user MaxSubstitutions Apex context logger = Some m ->
  consistent true (_apex m) = true.
Proof.
  unfold R_ctor, processTransitions. intros C E.
  destruct (bind _ _ _) as [[[[apex n] res] e'] |] eqn:B; [| discriminate].
  inversion E; subst; clear E. simpl.
  apply bind_inv in B. destruct B as (r1 & e1 & I & L).
  pose proof (deepEnterInitial_turns _ _ _ _ I C).
  eapply substitutionLoop_consistent; eauto.
Qed.

Lemma R_dtor_consistent (m m' : _R) :
  consistent true (_apex m) = true ->
  R_dtor user m = Some m' ->
  consistent false (_apex m') = true.
Proof.
  unfold R_dtor. intros C E.
  destruct (deepLeave user (_apex m) (env m)) as [[apex e] |] eqn:L; [| discriminate].
  inversion E; subst; clear E. simpl.
  eapply deepLeave_turns; eauto.
Qed.

Lemma request_keeps_tree type T (m m' : @_R TContext) :
  request type T m = Some m' -> _apex m' = _apex m.
Proof.
  unfold request. intros E.
  destruct (View.append _ _); inversion E; subst. reflexivity.
Qed.

Lemma Sub_nth_consistent s : forall sel TN p c,
  Sub_consistent sel TN s = true -> Sub_nth p TN s = Some c ->
  consistent (sel p) c = true.
Proof.
  induction s as [i | i r IH]; intros sel TN p c C E; simpl in *.
  - destruct (Z.eqb_spec p TN); inversion E; subst. exact C.
  - apply andb_true_iff in C. destruct C as (Ci & Cr).
    destruct (Z.eqb_spec p TN); [inversion E; subst; exact Ci |].
    eapply IH; eauto.
Qed.

Lemma Sub_nth_some s : forall TN p,
  TN <= p < TN + Sub_Width s -> exists c, Sub_nth p TN s = Some c.
Proof.
  induction s as [i | i r IH]; intros TN p H; cbn [Sub_nth Sub_Width] in *.
  - destruct (Z.eqb_spec p TN); [eauto | lia].
  - destruct (Z.eqb_spec p TN); [eauto |]. apply IH. lia.
Qed.

Lemma consistent_subRegion path : forall r b x,
  consistent b r = true -> subRegion path r = Some x ->
  consistent (b && activePath path r) x = true.
Proof.
  induction path as [| p rest IH]; intros r b x C E; simpl in E.
  - inversion E; subst. simpl. rewrite andb_true_r. exact C.
  - destruct r as [h | f h subs | f h subs]; simpl in E; [discriminate | |];
      destruct (Sub_nth p 0 subs) as [c |] eqn:N; try discriminate;
      cbn [activePath]; rewrite N.
    + marks_split.
      pose proof (Sub_nth_consistent _ _ _ _ _ C0 N) as Cc. simpl in Cc.
      rewrite andb_assoc. eapply IH; eauto.
    + cbn [consistent] in C.
      pose proof (Sub_nth_consistent _ _ _ _ _ C N) as Cc. simpl in Cc.
      eapply IH; eauto.
Qed.

Lemma activePath_app path : forall r x p,
  subRegion path r = Some x ->
  activePath (path ++ [p]) r = activePath path r && activePath [p] x.
Proof.
  induction path as [| q rest IH]; intros r x p E; simpl in E.
  - inversion E; subst. reflexivity.
  - destruct r as [h | f h subs | f h subs]; simpl in E; [discriminate | |];
      destruct (Sub_nth q 0 subs) as [c |] eqn:N; try discriminate;
      cbn [activePath app]; rewrite N, (IH _ _ _ E).
    + rewrite andb_assoc. reflexivity.
    + reflexivity.
Qed.

Lemma consistent_fork r path f h subs :
  consistent true r = true ->
  subRegion path r = Some (_C f h subs) ->
  (activePath path r = true ->
   0 <= active f < Sub_Width subs /\
   forall p, activePath (path ++ [p]) r = true <-> p = active f) /\
  (activePath path r = false ->
   active f = INVALID_INDEX /\
   forall p, activePath (path ++ [p]) r = false).
Proof.
  intros C E. pose proof (consistent_subRegion _ _ _ _ C E) as Cx.
  split; intros A; rewrite A in Cx; cbn [andb] in Cx; marks_split.
  - apply andb_true_iff in Cx. destruct Cx as (L & U).
    apply Z.leb_le in L. apply Z.ltb_lt in U. split; [lia |].
    intros p. rewrite (activePath_app _ _ _ p E), A. simpl.
    destruct (Sub_nth_some subs 0 (active f) ltac:(lia)) as (c & N).
    split.
    + intros H. apply andb_true_iff in H. destruct H as (H & _).
      apply Z.eqb_eq in H. congruence.
    + intros ->. rewrite Z.eqb_refl, N. reflexivity.
  - apply Z.eqb_eq in Cx. split; [exact Cx |].
    intros p. rewrite (activePath_app _ _ _ p E), A. reflexivity.
Qed.

(** C5, as the engine keeps it: construction takes a tree with no active
    prong to one whose fork records agree with the root being active; the
    request calls leave the tree alone; every tick and every event keeps the
    agreement, whether resolution applies or overflows; and destruction
    leaves no active prong.  In a tree whose records agree, a composite on
    an active path has exactly one active prong, a prong of its own, and a
    composite off every active path has [active] none and no active prong.
    And in every tree at most one prong of a composite is active, nothing is
    active below a region that is not, and [isActive] answers true for a
    state exactly when every composite on the path to it has [active] equal
    to the prong the path takes. *)
Theorem active_prongs_exclusive MaxSubstitutions :
  (forall Apex context logger (m : _R),
      consistent false Apex = true ->
      R_ctor user MaxSubstitutions Apex context logger = Some m ->
      consistent true (_apex m) = true) /\
  (forall type T (m m' : @_R TContext),
      request type T m = Some m' -> _apex m' = _apex m) /\
  (forall (m m' : _R) res,
      consistent true (_apex m) = true ->
      R_update user MaxSubstitutions m = Some (m', res) ->
      consistent true (_apex m') = true) /\
  (forall ev (m m' : _R) res,
      consistent true (_apex m) = true ->
      R_react user MaxSubstitutions ev m = Some (m', res) ->
      consistent true (_apex m') = true) /\
  (forall (m m' : _R),
      consistent true (_apex m) = true ->
      R_dtor user m = Some m' ->
      consistent false (_apex m') = true) /\
  (forall r path f h subs,
      consistent true r = true ->
      subRegion path r = Some (_C f h subs) ->
      (activePath path r = true ->
       0 <= active f < Sub_Width subs /\
       forall p, activePath (path ++ [p]) r = true <-> p = active f) /\
      (activePath path r = false ->
       active f = INVALID_INDEX /\
       forall p, activePath (path ++ [p]) r = false)) /\
  (forall r path f h subs p q,
      subRegion path r = Some (_C f h subs) ->
      activePath (path ++ [p]) r = true ->
      activePath (path ++ [q]) r = true ->
      p = q) /\
  (forall r path p,
      activePath path r = false -> activePath (path ++ [p]) r = false) /\
  (forall r T,
      deepIsActive T r = true <->
      exists path x, subRegion path r = Some x /\ head x = T /\
                     activePath path r = true).
Proof.
  split; [| split; [| split; [| split; [| split; [| split; [| split; [| split]]]]]]].
  - intros. eapply R_ctor_consistent; eauto.
  - intros. eapply request_keeps_tree; eauto.
  - intros. eapply R_update_consistent; eauto.
  - intros. eapply R_react_consistent; eauto.
  - intros. eapply R_dtor_consistent; eauto.
  - intros r path f h subs C E. exact (consistent_fork r path f h subs C E).
  - intros. eapply activePath_one_prong; eauto.
  - intros. apply activePath_below_inactive. assumption.
  - intros r T. split.
    + apply isActive_activePath.
    + intros (path & x & S & H & A). eapply activePath_isActive; eauto.
Qed.

(** ** Resume *)

Lemma leavesProng_records r p r' :
  leavesProng user r p r' ->
  exists f h subs f' subs',
    r = _C f h subs /\ p = active f /\
    r' = _C f' h subs' /\ resumable f' = p.
Proof.
  intros L. destruct L as [f h subs e r' e' E | f h subs e r' e' E Hreq Hact].
  - cbn [deepLeave] in E. monad_inv.
    exists f, h, subs. eexists. eexists. repeat split.
  - cbn [deepChangeToRequested] in E.
    destruct (Z.eqb_spec (requested f) INVALID_INDEX); [contradiction |].
    destruct (Z.eqb_spec (requested f) (active f)); [contradiction |].
    monad_inv.
    exists f, h, subs. eexists. eexists. repeat split.
Qed.

Lemma onPath_resumable kind p f :
  kind <> Transition.Schedule -> resumable (onPath kind p f) = resumable f.
Proof. destruct kind; simpl; intros H; try reflexivity. contradiction. Qed.

Lemma quietStep_keeps_resumable r r' :
  quietStep user r r' ->
  forall f h subs, r = _C f h subs ->
  exists f' subs', r' = _C f' h subs' /\ resumable f' = resumable f.
Proof.
  intros Q. destruct Q; intros f0 h0 subs0 E0; try subst r.
  - cbn [deepEnterInitial] in H. monad_inv. eexists. eexists. split; reflexivity.
  - cbn [deepEnter] in H. monad_inv. eexists. eexists. split; reflexivity.
  - apply (proj1 deepUpdate_same) in H. subst. eexists. eexists. split; reflexivity.
  - apply (proj1 deepTransition_same) in H. subst. eexists. eexists. split; reflexivity.
  - apply (proj1 (deepReact_same ev)) in H. subst. eexists. eexists. split; reflexivity.
  - apply (proj1 deepSubstitute_same) in H. subst. eexists. eexists. split; reflexivity.
  - apply (proj1 deepForwardSubstitute_same) in H. subst.
    eexists. eexists. split; reflexivity.
  - cbn [deepRequest]. destruct (Nat.eqb h0 T).
    + destruct kind; simpl; try contradiction;
        eexists; eexists; split; reflexivity.
    + destruct (prongOf T 0 subs0).
      * eexists. eexists. split; [reflexivity |]. apply onPath_resumable. assumption.
      * eexists. eexists. split; reflexivity.
  - eexists. eexists. split; reflexivity.
  - eexists. eexists. split; reflexivity.
  - inversion E0; subst; clear E0.
    cbn [deepChangeToRequested] in H.
    destruct (Z.eqb_spec (requested f0) INVALID_INDEX).
    + monad_inv. eexists. eexists. split; reflexivity.
    + destruct H0 as [H0 | H0]; [contradiction |].
      rewrite H0, Z.eqb_refl in H. monad_inv.
      eexists. eexists. split; reflexivity.
Qed.

Lemma quiet_keeps_resumable r r' :
  quiet user r r' ->
  forall f h subs, r = _C f h subs ->
  exists f' subs', r' = _C f' h subs' /\ resumable f' = resumable f.
Proof.
  induction 1 as [r | r1 r2 r3 Q IH S]; intros f h subs E.
  - subst. eexists. eexists. split; reflexivity.
  - destruct (IH _ _ _ E) as (f2 & subs2 & E2 & R2).
    destruct (quietStep_keeps_resumable _ _ S _ _ _ E2) as (f3 & subs3 & E3 & R3).
    exists f3, subs3. split; [assumption | congruence].
Qed.

(** C7, as the engine keeps history: when a composite loses its active
    prong [p] (it is left, or the apply point switches it away) its
    [resumable] becomes [p]; every later operation on it other than another
    such leave and other than a Schedule request keeps [resumable]; a
    Resume request that targets the composite itself then selects [p]; and
    a Resume request that targets a state below the composite selects the
    prong that holds the target, whatever [resumable] is. *)
Theorem resume_selects_last_left f h subs p F1 F2 :
  leavesProng user (_C f h subs) p F1 ->
  quiet user F1 F2 ->
  p <> INVALID_INDEX ->
  p = active f /\
  exists f2 subs2,
    F2 = _C f2 h subs2 /\ resumable f2 = p /\
    forkOf (deepRequest Transition.Resume h F2) = Some (set_requested p f2) /\
    forkOf (deepRequestResume F2) = Some (set_requested p f2) /\
    (forall T q, T <> h -> prongOf T 0 subs2 = Some q ->
                 forkOf (deepRequest Transition.Resume T F2)
                 = Some (set_requested (toIndex q) f2)).
Proof.
  intros L Q Hp.
  apply leavesProng_records in L.
  destruct L as (f0 & h0 & subs0 & f1 & subs1 & E0 & -> & -> & R1).
  inversion E0; subst; clear E0.
  split; [reflexivity |].
  destruct (quiet_keeps_resumable _ _ Q _ _ _ eq_refl) as (f2 & subs2 & -> & R2).
  exists f2, subs2. split; [reflexivity |]. split; [congruence |].
  split; [| split].
  - cbn [deepRequest]. rewrite Nat.eqb_refl. simpl.
    unfold resumed. rewrite R2, R1.
    destruct (Z.eqb_spec (active f0) INVALID_INDEX); [contradiction | reflexivity].
  - simpl. unfold resumed. rewrite R2, R1.
    destruct (Z.eqb_spec (active f0) INVALID_INDEX); [contradiction | reflexivity].
  - intros T q HT Hq. cbn [deepRequest].
    destruct (Nat.eqb_spec h0 T) as [E | _]; [congruence |].
    rewrite Hq. reflexivity.
Qed.

(** ** The request interface *)

Lemma append_room {T} (v : ArrayView T) x :
  View.count v < _capacity v ->
  View.append v x = Some (mkArrayView (_capacity v) (_items v ++ [x])).
Proof.
  intros H. unfold View.append.
  destruct (Z.ltb_spec (View.count v) (_capacity v)); [reflexivity | lia].
Qed.

(** C8 fails as stated: the queue of [AndPair] has one slot, and with one
    request in it no further call is defined to append anything, on the
    root or on a [Control]. *)
Lemma full_queue_takes_no_request :
  R_static.TransitionQueueStorage_CAPACITY Ex.AndPair = 1 /\
  _capacity (_requests (env Ex.andRequested)) = 1 /\
  View.count (_requests (env Ex.andRequested)) = 1 /\
  changeTo Ex.B Ex.andRequested = None /\
  resume Ex.B Ex.andRequested = None /\
  schedule Ex.B Ex.andRequested = None /\
  Control_changeTo Ex.B (_requests (env Ex.andRequested)) = None.
Proof. vm_compute. repeat split; reflexivity. Qed.

(** C8: with room in the queue, [changeTo<T>], [resume<T>] and
    [schedule<T>], on the root and on a [Control], append exactly one record,
    of kind Restart, Resume and Schedule and of state type [T], and leave
    the tree, the context and the logger as they are; and between two apply
    points nothing changes the active configuration: the update, transition
    and react passes and the guards hand the tree back unchanged, and the
    handling of the queued requests keeps every [active] field. *)
Theorem request_appends_one (T : TypeInfo) (m : @_R TContext) :
  View.count (_requests (env m)) < _capacity (_requests (env m)) ->
  (changeTo T m = Some (appended Transition.Restart T m) /\
   resume T m = Some (appended Transition.Resume T m) /\
   schedule T m = Some (appended Transition.Schedule T m)) /\
  (Control_changeTo T (_requests (env m))
   = Some (_requests (env (appended Transition.Restart T m))) /\
   Control_resume T (_requests (env m))
   = Some (_requests (env (appended Transition.Resume T m))) /\
   Control_schedule T (_requests (env m))
   = Some (_requests (env (appended Transition.Schedule T m)))) /\
  (forall type,
      _apex (appended type T m) = _apex m /\
      _context (env (appended type T m)) = _context (env m) /\
      _items (_requests (env (appended type T m)))
      = _items (_requests (env m)) ++ [Transition.mk type T]) /\
  (forall r (e : Env) r' b e',
      deepUpdateAndTransition user r e = Some ((r', b), e') -> r' = r) /\
  (forall ev r (e : Env) r' e',
      deepReact user ev r e = Some (r', e') -> r' = r) /\
  (forall r (e : Env) r' e',
      deepForwardSubstitute user r e = Some (r', e') -> r' = r) /\
  (forall pending apex apex',
      handleRequests pending apex = Some apex' ->
      activeConfiguration apex' = activeConfiguration apex).
Proof.
  intros Room.
  split; [| split; [| split; [| split; [| split; [| split]]]]].
  - unfold changeTo, resume, schedule, request, appended.
    rewrite !(append_room _ _ Room). auto.
  - unfold Control_changeTo, Control_resume, Control_schedule, Control_request.
    rewrite !(append_room _ _ Room). auto.
  - intros type. auto.
  - intros r e r' b e' E. apply deepUpdateAndTransition_spec in E. tauto.
  - intros ev r e r' e' E. eapply (proj1 (deepReact_same ev)); eauto.
  - intros r e r' e' E. eapply (proj1 deepForwardSubstitute_same); eauto.
  - apply handleRequests_keeps.
Qed.

(** ** Hooks *)

Lemma issue_items rs (e e' : Env) u :
  issue rs e = Some (u, e') -> _items (_requests e') = _items (_requests e) ++ rs.
Proof.
  unfold issue. destruct (View.append_all (_requests e) rs) as [q |] eqn:E; [| discriminate].
  intros H. inversion H; subst; clear H. simpl.
  apply append_all_inv in E. tauto.
Qed.

(** C9: a hook chain run on a state changes the context and nothing else:
    the request queue, the history and the logger are as before.  So the
    queue after [enter], [update] or [leave] is the queue before, and the
    queue after [substitute], [transition] or [react] is the queue before
    followed by the requests the state's own callback issued. *)
Theorem hooks_leave_queue_alone (T : TypeInfo) (e : Env) :
  (forall hook : Bare -> TContext -> TContext,
      runHooks user (wideHook hook) T e
      = Some (tt, set_context (wideHook hook (injections (user T)) (_context e)) e) /\
      _requests (set_context (wideHook hook (injections (user T)) (_context e)) e)
      = _requests e) /\
  (forall u e', S_deepEnter user T e = Some (u, e') -> _requests e' = _requests e) /\
  (forall u e', S_deepUpdate user T e = Some (u, e') -> _requests e' = _requests e) /\
  (forall u e', S_deepLeave user T e = Some (u, e') -> _requests e' = _requests e) /\
  (forall u e',
      S_deepSubstitute user T e = Some (u, e') ->
      _items (_requests e')
      = _items (_requests e)
        ++ fst (substitute (user T) (View.count (_requests e))
                  (widePreSubstitute (injections (user T)) (_context e)))) /\
  (forall u e',
      S_deepTransition user T e = Some (u, e') ->
      _items (_requests e')
      = _items (_requests e)
        ++ fst (transition (user T) (View.count (_requests e))
                  (widePreTransition (injections (user T)) (_context e)))) /\
  (forall ev u e',
      S_deepReact user ev T e = Some (u, e') ->
      _items (_requests e')
      = _items (_requests e)
        ++ fst (react (user T) ev (View.count (_requests e))
                  (widePreReact ev (injections (user T)) (_context e)))).
Proof.
  split; [| split; [| split; [| split; [| split; [| split]]]]].
  - intros hook. split; reflexivity.
  - intros u e' E. unfold S_deepEnter, runHooks, runPlain in E. monad_inv. reflexivity.
  - intros u e' E. unfold S_deepUpdate, runHooks, runPlain in E. monad_inv. reflexivity.
  - intros u e' E. unfold S_deepLeave, runHooks, runPlain in E. monad_inv. reflexivity.
  - intros u e' E. unfold S_deepSubstitute, runHooks, runControlled in E. monad_inv.
    simpl in E. destruct (substitute _ _ _) as [rs c]. apply issue_items in E. exact E.
  - intros u e' E. unfold S_deepTransition, runHooks, runControlled in E. monad_inv.
    simpl in E. destruct (transition _ _ _) as [rs c]. apply issue_items in E. exact E.
  - intros ev u e' E. unfold S_deepReact, runHooks, runControlled in E. monad_inv.
    simpl in E. destruct (react _ _ _ _) as [rs c]. apply issue_items in E. exact E.
Qed.

(** ** The request queue *)





End EngineFacts.

(** * The examples, checked *)

Lemma static_assert_accepts_below_255_witness :
  R_static.static_assert_StateCount (peers 253) = inl tt /\
  R_static.static_assert_StateCount (peers 254) = inr R_static.too_many_states.
Proof.
  split.
  - apply (proj1 (static_assert_accepts_below_255 (peers 253))).
    vm_compute. reflexivity.
  - apply (proj2 (static_assert_accepts_below_255 (peers 254))).
    vm_compute. discriminate.
Defined.

(** C3 fails as stated: with the default [MaxSubstitutions = 4], one tick of
    [Chain] after [changeTo<P1>()] runs five guards, those of [P1], [P2],
    [P3], [P4] and [B], in a single round. *)
Lemma chain_runs_five_guards :
  Ex.andThen (Ex.construct Ex.idle Ex.Chain) (changeTo Ex.P1)
  = Some Ex.chainRequested /\
  R_update Ex.idle TMaxSubstitutions_default Ex.chainRequested
  = Some (Ex.chainSwitched, Applied) /\
  Ex.added Ex.chainRequested Ex.chainSwitched
  = [Recorded Ex.R0 LoggerInterface.Update;
     Recorded Ex.A LoggerInterface.Update;
     Recorded Ex.R0 LoggerInterface.Transition;
     Recorded Ex.A LoggerInterface.Transition;
     Recorded Ex.P1 LoggerInterface.Substitute;
     Recorded Ex.P2 LoggerInterface.Substitute;
     Recorded Ex.P3 LoggerInterface.Substitute;
     Recorded Ex.P4 LoggerInterface.Substitute;
     Recorded Ex.B LoggerInterface.Substitute;
     Recorded Ex.A LoggerInterface.Leave;
     Recorded Ex.P1 LoggerInterface.Enter;
     Recorded Ex.P2 LoggerInterface.Enter;
     Recorded Ex.P3 LoggerInterface.Enter;
     Recorded Ex.P4 LoggerInterface.Enter;
     Recorded Ex.B LoggerInterface.Enter] /\
  countMethod LoggerInterface.Substitute (Ex.added Ex.chainRequested Ex.chainSwitched)
  = 5%nat /\
  ~ (countMethod LoggerInterface.Substitute (Ex.added Ex.chainRequested Ex.chainSwitched)
     <= TMaxSubstitutions_default)%nat.
Proof.
  repeat split; try reflexivity.
  vm_compute. intros H. repeat (apply le_S_n in H). inversion H.
Qed.

Lemma substitution_rounds_bounded_witness :
  (exists added,
      trace (env Ex.tripleOverflowed) = trace (env Ex.tripleRequested) ++ added /\
      (countMethod LoggerInterface.Substitute added
       <= 4 * states (_apex Ex.tripleRequested))%nat) /\
  (exists added,
      trace (env Ex.chainSwitched) = trace (env Ex.chainRequested) ++ added /\
      (countMethod LoggerInterface.Substitute added
       <= 4 * states (_apex Ex.chainRequested))%nat).
Proof.
  split.
  - apply (proj2 (proj2 (substitution_rounds_bounded Ex.pingpong 4))
             Ex.tripleRequested Ex.tripleOverflowed Overflowed).
    vm_compute. reflexivity.
  - apply (proj2 (proj2 (substitution_rounds_bounded Ex.idle 4))
             Ex.chainRequested Ex.chainSwitched Applied).
    vm_compute. reflexivity.
Defined.



(** [XorPair] constructed, switched by a tick, and kept by a tick that
    overflows; and in [TwoRegions] with [B1] entered the region [Q0] has
    its one active prong and the region [P0], left, has none. *)
Lemma active_prongs_exclusive_witness :
  consistent true (_apex Ex.pairStarted) = true /\
  consistent true (_apex Ex.pairSwitched) = true /\
  consistent true (_apex Ex.guardOverflowed) = true /\
  (0 <= active (mkFork 2 0 255 255)
   < Sub_Width (SubN (_S Ex.B1) (Sub1 (_S Ex.B2))) /\
   forall p, activePath ([1] ++ [p]) (_apex Ex.regionsEntered) = true
             <-> p = active (mkFork 2 0 255 255)) /\
  (active (mkFork 1 255 0 255) = INVALID_INDEX /\
   forall p, activePath ([0] ++ [p]) (_apex Ex.regionsEntered) = false) /\
  (forall p q,
      activePath ([] ++ [p]) (_apex Ex.pairSwitched) = true ->
      activePath ([] ++ [q]) (_apex Ex.pairSwitched) = true -> p = q) /\
  activePath ([0] ++ [0]) (_apex Ex.regionsEntered) = false /\
  (deepIsActive Ex.B (_apex Ex.pairSwitched) = true <->
   exists path x, subRegion path (_apex Ex.pairSwitched) = Some x /\
                  head x = Ex.B /\
                  activePath path (_apex Ex.pairSwitched) = true).
Proof.
  pose proof (active_prongs_exclusive Ex.idle 4)
    as (Hc & _ & _ & _ & _ & Hf & H1 & H2 & H3).
  pose proof (active_prongs_exclusive Ex.guarded 4)
    as (_ & _ & Hu & _).
  pose proof (active_prongs_exclusive Ex.idle 4)
    as (_ & _ & Hi & _).
  split; [| split; [| split; [| split; [| split; [| split; [| split]]]]]].
  - apply (Hc Ex.XorPair tt (Some []) Ex.pairStarted); vm_compute; reflexivity.
  - apply (Hi Ex.pairRequested Ex.pairSwitched Applied); vm_compute; reflexivity.
  - apply (Hu Ex.guardRequested Ex.guardOverflowed Overflowed);
      vm_compute; reflexivity.
  - apply (proj1 (Hf (_apex Ex.regionsEntered) [1] (mkFork 2 0 255 255) Ex.Q0
                     (SubN (_S Ex.B1) (Sub1 (_S Ex.B2)))
                     ltac:(vm_compute; reflexivity) ltac:(vm_compute; reflexivity))).
    vm_compute. reflexivity.
  - apply (proj2 (Hf (_apex Ex.regionsEntered) [0] (mkFork 1 255 0 255) Ex.P0
                     (SubN (_S Ex.A1) (Sub1 (_S Ex.A2)))
                     ltac:(vm_compute; reflexivity) ltac:(vm_compute; reflexivity))).
    vm_compute. reflexivity.
  - intros p q. refine (H1 (_apex Ex.pairSwitched) [] _ _ _ p q _). reflexivity.
  - apply H2. reflexivity.
  - apply H3.
Defined.

(** C6 fails as stated: in the tick of scenario 1 the guard of [B] runs
    before [B] is entered, and no [substitute] of [B] follows its [enter]. *)
Lemma enter_follows_substitute :
  Ex.andThen (Ex.construct Ex.idle Ex.XorPair) (changeTo Ex.B)
  = Some Ex.pairRequested /\
  R_update Ex.idle TMaxSubstitutions_default Ex.pairRequested
  = Some (Ex.pairSwitched, Applied) /\
  Ex.added Ex.pairRequested Ex.pairSwitched
  = [Recorded Ex.R0 LoggerInterface.Update;
     Recorded Ex.A LoggerInterface.Update;
     Recorded Ex.R0 LoggerInterface.Transition;
     Recorded Ex.A LoggerInterface.Transition;
     Recorded Ex.B LoggerInterface.Substitute;
     Recorded Ex.A LoggerInterface.Leave;
     Recorded Ex.B LoggerInterface.Enter] /\
  occursBefore (Recorded Ex.B LoggerInterface.Substitute)
               (Recorded Ex.B LoggerInterface.Enter)
               (Ex.added Ex.pairRequested Ex.pairSwitched) = true /\
  occursBefore (Recorded Ex.B LoggerInterface.Enter)
               (Recorded Ex.B LoggerInterface.Substitute)
               (Ex.added Ex.pairRequested Ex.pairSwitched) = false.
Proof. repeat split; reflexivity. Qed.

Lemma tick_is_ordered_witness :
  (exists updates guards applied,
      trace (env Ex.pairSwitched)
      = trace (env Ex.pairRequested) ++ updates ++ guards ++ applied /\
      Forall (records [LoggerInterface.Update; LoggerInterface.Transition]) updates /\
      Forall (records [LoggerInterface.Substitute]) guards /\
      Forall (records [LoggerInterface.Leave; LoggerInterface.Enter]) applied) /\
  (exists left entered,
      trace (snd Ex.pairApplied)
      = trace (env Ex.pairRequested) ++ left ++ entered /\
      Forall (records [LoggerInterface.Leave]) left /\
      Forall (records [LoggerInterface.Enter]) entered).
Proof.
  split.
  - apply (proj1 (tick_is_ordered Ex.idle 4) Ex.pairRequested Ex.pairSwitched Applied).
    vm_compute. reflexivity.
  - apply (proj2 (tick_is_ordered Ex.idle 4)
             (mkFork 0 0 255 1) Ex.R0 (SubN (_S Ex.A) (Sub1 (_S Ex.B)))
             (env Ex.pairRequested) (fst Ex.pairApplied) (snd Ex.pairApplied)).
    + vm_compute. reflexivity.
    + vm_compute. discriminate.
    + vm_compute. discriminate.
Defined.

(** C7 fails as stated: [Q0] of [TwoRegions] is left while its prong 0
    ([B1]) is active, so its [resumable] is 0.  A tick that handles
    [schedule<B2>()] leaves nothing and yet rewrites [resumable] to 1, and
    [resume<Q0>()] then selects [B2], not the prong that was active at the
    last leave.  And without any Schedule, [resume<B2>()], a Resume request
    that targets a state of the subtree of [Q0], selects the prong of [B2],
    not the prong [B1] that was active at the last leave. *)
Lemma schedule_rewrites_history :
  Ex.andThen (Ex.andThen (Ex.construct Ex.idle Ex.TwoRegions) (changeTo Ex.B1))
             (Ex.tick Ex.idle) = Some Ex.regionsEntered /\
  option_map active (Ex.forkQ Ex.regionsEntered) = Some 0 /\
  Ex.andThen (changeTo Ex.A1 Ex.regionsEntered) (Ex.tick Ex.idle)
  = Some Ex.regionsLeft /\
  option_map resumable (Ex.forkQ Ex.regionsLeft) = Some 0 /\
  Ex.andThen (schedule Ex.B2 Ex.regionsLeft) (Ex.tick Ex.idle)
  = Some Ex.regionsScheduled /\
  countMethod LoggerInterface.Leave (Ex.added Ex.regionsLeft Ex.regionsScheduled)
  = 0%nat /\
  option_map resumable (Ex.forkQ Ex.regionsScheduled) = Some 1 /\
  Ex.andThen (resume Ex.Q0 Ex.regionsScheduled) (Ex.tick Ex.idle)
  = Some Ex.regionsResumed /\
  option_map active (Ex.forkQ Ex.regionsResumed) = Some 1 /\
  isActive Ex.B2 Ex.regionsResumed = true /\
  isActive Ex.B1 Ex.regionsResumed = false /\
  Ex.andThen (resume Ex.B2 Ex.regionsLeft) (Ex.tick Ex.idle)
  = Some Ex.regionsResumedBelow /\
  option_map active (Ex.forkQ Ex.regionsResumedBelow) = Some 1 /\
  isActive Ex.B2 Ex.regionsResumedBelow = true /\
  isActive Ex.B1 Ex.regionsResumedBelow = false.
Proof. repeat split; reflexivity. Qed.

(** [Q0] is left with [B1] active; then [B2] is requested, entered and
    updated; a Resume request for [Q0] still selects the prong of [B1]. *)
Lemma resume_selects_last_left_witness :
  0 = active (mkFork 2 0 255 255) /\
  exists f2 subs2,
    fst Ex.regionQUpdated = _C f2 Ex.Q0 subs2 /\ resumable f2 = 0 /\
    forkOf (deepRequest Transition.Resume Ex.Q0 (fst Ex.regionQUpdated))
    = Some (set_requested 0 f2) /\
    forkOf (deepRequestResume (fst Ex.regionQUpdated)) = Some (set_requested 0 f2) /\
    (forall T q, T <> Ex.Q0 -> prongOf T 0 subs2 = Some q ->
                 forkOf (deepRequest Transition.Resume T (fst Ex.regionQUpdated))
                 = Some (set_requested (toIndex q) f2)).
Proof.
  apply (resume_selects_last_left Ex.idle
           (mkFork 2 0 255 255) Ex.Q0 (SubN (_S Ex.B1) (Sub1 (_S Ex.B2)))
           0 (fst Ex.regionQLeft) (fst Ex.regionQUpdated)).
  - apply (leaves_deepLeave Ex.idle (mkFork 2 0 255 255) Ex.Q0
             (SubN (_S Ex.B1) (Sub1 (_S Ex.B2)))
             (env Ex.regionsEntered) (fst Ex.regionQLeft) (snd Ex.regionQLeft)).
    vm_compute. reflexivity.
  - apply (quiet_next Ex.idle _ (fst Ex.regionQEntered)).
    + apply (quiet_next Ex.idle _ Ex.regionQRequested).
      * apply (quiet_next Ex.idle _ (fst Ex.regionQLeft)); [apply quiet_refl |].
        apply (quiet_request Ex.idle Transition.Restart Ex.B2 (fst Ex.regionQLeft)).
        discriminate.
      * apply (quiet_enter Ex.idle Ex.regionQRequested (snd Ex.regionQLeft)
                 (fst Ex.regionQEntered) (snd Ex.regionQEntered)).
        vm_compute. reflexivity.
    + apply (quiet_update Ex.idle (fst Ex.regionQEntered) (snd Ex.regionQEntered)
               (fst Ex.regionQUpdated) (snd Ex.regionQUpdated)).
      vm_compute. reflexivity.
  - vm_compute. discriminate.
Defined.

Lemma request_appends_one_witness :
  changeTo Ex.B Ex.pairStarted = Some (appended Transition.Restart Ex.B Ex.pairStarted) /\
  resume Ex.B Ex.pairStarted = Some (appended Transition.Resume Ex.B Ex.pairStarted) /\
  schedule Ex.B Ex.pairStarted = Some (appended Transition.Schedule Ex.B Ex.pairStarted).
Proof.
  apply (request_appends_one Ex.idle Ex.B Ex.pairStarted).
  vm_compute. reflexivity.
Defined.

Lemma hooks_leave_queue_alone_witness :
  S_deepSubstitute Ex.pingpong Ex.B (env Ex.pairStarted) = Some Ex.pairGuarded /\
  _items (_requests (snd Ex.pairGuarded))
  = _items (_requests (env Ex.pairStarted))
    ++ [Transition.mk Transition.Restart Ex.C] /\
  _requests (set_context
               (wideHook preSubstitute (injections (Ex.pingpong Ex.B))
                         (_context (env Ex.pairStarted)))
               (env Ex.pairStarted))
  = _requests (env Ex.pairStarted).
Proof.
  pose proof (hooks_leave_queue_alone Ex.pingpong Ex.B (env Ex.pairStarted))
    as (Hh & _ & _ & _ & Hs & _).
  split; [vm_compute; reflexivity |]. split.
  - apply (Hs (fst Ex.pairGuarded) (snd Ex.pairGuarded)). vm_compute. reflexivity.
  - apply (proj2 (Hh preSubstitute)).
Defined.



(** * Further properties *)

(** ** [hfsm/detail/utility.hpp] *)

(** [Min] and [Max] are the smaller and the larger of their arguments: each
    is one of the two, [Min] is below both and [Max] above both, and they
    split the pair between them. *)
Theorem Min_Max_order (t1 t2 : Z) :
  detail.Min t1 t2 = Z.min t1 t2 /\
  detail.Max t1 t2 = Z.max t1 t2 /\
  detail.Min t1 t2 <= detail.Max t1 t2 /\
  detail.Min t1 t2 + detail.Max t1 t2 = t1 + t2 /\
  detail.Max t1 t2 = detail.Max t2 t1.
Proof.
  unfold detail.Min, detail.Max.
  destruct (Z.ltb_spec t1 t2); destruct (Z.gtb_spec t1 t2);
    destruct (Z.gtb_spec t2 t1); lia.
Qed.

Lemma land_pow2_pred k : 0 <= k -> Z.land (2 ^ k) (2 ^ k - 1) = 0.
Proof.
  intros Hk. replace (2 ^ k - 1) with (Z.ones k)
    by (rewrite Z.ones_equiv; lia).
  rewrite Z.land_ones by assumption. apply Z.mod_same.
  pose proof (Z.pow_pos_nonneg 2 k). lia.
Qed.

Lemma land_pred_not_pow2 t :
  0 < t -> t <> 2 ^ Z.log2 t -> Z.land t (t - 1) <> 0.
Proof.
  intros Ht Hn E.
  pose proof (Z.log2_spec t Ht) as (Lo & Hi).
  pose proof (Z.log2_nonneg t) as Hk.
  assert (L1 : Z.log2 (t - 1) = Z.log2 t).
  { apply Z.log2_unique; [assumption |]. lia. }
  assert (B : Z.testbit (Z.land t (t - 1)) (Z.log2 t) = true).
  { rewrite Z.land_spec, (Z.bit_log2 t Ht).
    rewrite <- L1. rewrite Z.bit_log2 by lia. reflexivity. }
  rewrite E, Z.bits_0 in B. discriminate.
Qed.

(** [PowerOf2<t>::Value] is set exactly when [t] is 0 or a power of two: the
    test [!(t & (t - 1))] lets 0 through, since [0 - 1] wraps around to all
    ones. *)
Theorem PowerOf2_spec (t : Z) :
  0 <= t < 2 ^ 32 ->
  (detail.PowerOf2 t = true <-> t = 0 \/ exists k, 0 <= k < 32 /\ t = 2 ^ k).
Proof.
  intros Ht. unfold detail.PowerOf2.
  destruct (Z.eq_dec t 0) as [-> | Hz].
  - split; [auto | reflexivity].
  - assert (W : wrap32 (t - 1) = t - 1) by (apply wrap32_small; lia).
    rewrite W, Z.eqb_eq. split.
    + intros E. right. exists (Z.log2 t).
      assert (Hp : 0 < t) by lia.
      pose proof (Z.log2_spec t Hp) as (Lo & Hi).
      pose proof (Z.log2_nonneg t).
      destruct (Z.eq_dec t (2 ^ Z.log2 t)) as [Et | Net].
      * split; [| exact Et]. split; [assumption |].
        apply Z.log2_lt_pow2; lia.
      * exfalso. apply (land_pred_not_pow2 t Hp Net E).
    + intros [E | (k & Hk & ->)]; [contradiction |].
      apply land_pow2_pred. lia.
Qed.

Lemma shiftr_zero_iff t k : 0 <= t -> 0 <= k -> (Z.shiftr t k =? 0) = (t <? 2 ^ k).
Proof.
  intros Ht Hk. rewrite Z.shiftr_div_pow2 by assumption.
  pose proof (Z.pow_pos_nonneg 2 k ltac:(lia) Hk) as Hp.
  destruct (Z.ltb_spec t (2 ^ k)).
  - rewrite Z.div_small by lia. reflexivity.
  - apply Z.eqb_neq. intros E.
    apply Z.div_small_iff in E; lia.
Qed.

Lemma BitCount_from_spec fuel : forall k t,
  0 <= k -> 0 <= t ->
  (0 < k -> 2 ^ (k - 1) <= t) ->
  let r := detail.BitCount_from fuel k t in
  k <= r <= k + Z.of_nat fuel /\
  (0 < r -> 2 ^ (r - 1) <= t) /\
  (r < k + Z.of_nat fuel -> t < 2 ^ r).
Proof.
  induction fuel as [| fuel IH]; intros k t Hk Ht Hlow; cbn [detail.BitCount_from].
  - cbv zeta. replace (k + Z.of_nat 0) with k by lia.
    split; [lia |]. split; [intros H; apply Hlow; exact H | lia].
  - rewrite shiftr_zero_iff by assumption.
    destruct (Z.ltb_spec t (2 ^ k)) as [Hlt | Hge].
    + cbv zeta. split; [lia |]. split; [intros H; apply Hlow; exact H | intros _; exact Hlt].
    + specialize (IH (k + 1) t ltac:(lia) Ht).
      replace (k + 1 - 1) with k in IH by lia.
      specialize (IH (fun _ => Hge)). cbv zeta in IH.
      destruct IH as (R1 & R2 & R3). cbv zeta.
      split; [lia |]. split; [exact R2 |].
      intros H. apply R3. lia.
Qed.

(** [BitCount<t>::Value] is the length of [t] in bits: 0 for 0, and for a
    positive [t] the one [n] in 1..32 with [2^(n-1) <= t < 2^n]. *)
Theorem BitCount_spec (t : Z) :
  0 <= t < 2 ^ 32 ->
  0 <= detail.BitCount t <= 32 /\
  t < 2 ^ detail.BitCount t /\
  (0 < t -> 2 ^ (detail.BitCount t - 1) <= t) /\
  detail.BitCount t = (if t =? 0 then 0 else Z.log2 t + 1).
Proof.
  intros Ht. unfold detail.BitCount.
  pose proof (BitCount_from_spec 32 0 t ltac:(lia) ltac:(lia) ltac:(lia)) as H.
  cbv zeta in H. destruct H as (R1 & R2 & R3).
  set (r := detail.BitCount_from 32 0 t) in *.
  change (Z.of_nat 32) with 32 in *.
  assert (U : t < 2 ^ r).
  { destruct (Z.eq_dec r 32) as [E | N]; [rewrite E; lia | apply R3; lia]. }
  assert (P : 0 < t -> 2 ^ (r - 1) <= t).
  { intros Hp. apply R2. destruct (Z.eq_dec r 0) as [E | N]; [| lia].
    rewrite E in U. simpl in U. lia. }
  repeat split; try lia; try assumption.
  destruct (Z.eqb_spec t 0) as [E | N].
  - subst t. destruct (Z.eq_dec r 0) as [E | N]; [assumption |].
    specialize (R2 ltac:(lia)).
    pose proof (Z.pow_pos_nonneg 2 (r - 1) ltac:(lia) ltac:(lia)). lia.
  - assert (Hp : 0 < t) by lia. specialize (P Hp).
    assert (0 < r).
    { destruct (Z.eq_dec r 0) as [E | N']; [| lia].
      rewrite E in U. simpl in U. lia. }
    assert (L : Z.log2 t = r - 1).
    { apply Z.log2_unique; [lia |].
      replace (Z.succ (r - 1)) with r by lia. lia. }
    lia.
Qed.

(** [NextPowerOf2<t>::Value], for [t] from 1 to [2^30] (where [1 << n] stays
    within [int]), is the least power of two that is not below [t]: it is
    [2^k] with [t <= 2^k < 2 t]. *)
Theorem NextPowerOf2_spec (t : Z) :
  0 < t <= 2 ^ 30 ->
  exists k,
    0 <= k <= 30 /\
    detail.NextPowerOf2 t = 2 ^ k /\
    t <= 2 ^ k < 2 * t /\
    (forall j, 0 <= j -> t <= 2 ^ j -> 2 ^ k <= 2 ^ j).
Proof.
  intros Ht. unfold detail.NextPowerOf2.
  assert (Hr : 0 <= t < 2 ^ 32) by lia.
  assert (Least : forall k, 0 <= k -> 2 ^ k < 2 * t ->
                            forall j, 0 <= j -> t <= 2 ^ j -> 2 ^ k <= 2 ^ j).
  { intros k Hk Hlt j Hj Hle. apply Z.pow_le_mono_r; [lia |].
    destruct (Z.le_gt_cases k j) as [L | G]; [assumption |].
    exfalso. assert (2 ^ (j + 1) <= 2 ^ k) by (apply Z.pow_le_mono_r; lia).
    rewrite Z.pow_add_r in H by lia. change (2 ^ 1) with 2 in H. lia. }
  destruct (detail.PowerOf2 t) eqn:P.
  - apply (PowerOf2_spec t Hr) in P. destruct P as [E | (k & Hk & E)]; [lia |].
    exists k. subst t.
    assert (k <= 30).
    { destruct (Z.le_gt_cases k 30) as [L | G]; [assumption |].
      assert (2 ^ 31 <= 2 ^ k) by (apply Z.pow_le_mono_r; lia). lia. }
    pose proof (Z.pow_pos_nonneg 2 k ltac:(lia) ltac:(lia)).
    split; [lia |]. split; [reflexivity |]. split; [lia |]. apply Least; lia.
  - destruct (BitCount_spec t Hr) as (B1 & B2 & B3 & _).
    specialize (B3 ltac:(lia)).
    set (b := detail.BitCount t) in *.
    assert (Hb : 0 < b).
    { destruct (Z.eq_dec b 0) as [E | N]; [| lia]. rewrite E in B2. simpl in B2. lia. }
    assert (Hne : t <> 2 ^ (b - 1)).
    { intros E. assert (detail.PowerOf2 t = true); [| congruence].
      apply (PowerOf2_spec t Hr). right. exists (b - 1). split; [lia | exact E]. }
    assert (Hb30 : b <= 30).
    { destruct (Z.le_gt_cases b 30) as [L | G]; [assumption |].
      assert (2 ^ 30 <= 2 ^ (b - 1)) by (apply Z.pow_le_mono_r; lia). lia. }
    assert (Hpow : 2 ^ b = 2 * 2 ^ (b - 1)).
    { replace b with (1 + (b - 1)) at 1 by lia.
      rewrite Z.pow_add_r by lia. reflexivity. }
    assert (Hsmall : 2 ^ b <= 2 ^ 30) by (apply Z.pow_le_mono_r; lia).
    exists b. rewrite Z.shiftl_1_l, wrap32_small by lia.
    split; [lia |]. split; [reflexivity |]. split; [lia |]. apply Least; lia.
Qed.

(** [NextPowerOf2] leaves 0 and the powers of two as they are and moves
    every other value, so applying it twice is applying it once. *)
Theorem NextPowerOf2_fixed (t : Z) :
  0 <= t <= 2 ^ 30 ->
  (detail.NextPowerOf2 t = t <-> detail.PowerOf2 t = true) /\
  detail.NextPowerOf2 (detail.NextPowerOf2 t) = detail.NextPowerOf2 t.
Proof.
  intros Ht.
  assert (Fix : detail.NextPowerOf2 t = t <-> detail.PowerOf2 t = true).
  { split.
    - intros E. destruct (Z.eq_dec t 0) as [-> | N]; [reflexivity |].
      destruct (NextPowerOf2_spec t ltac:(lia)) as (k & Hk & Ek & _).
      apply PowerOf2_spec; [lia |]. right. exists k. split; [lia | congruence].
    - intros P. unfold detail.NextPowerOf2. rewrite P. reflexivity. }
  split; [exact Fix |].
  destruct (Z.eq_dec t 0) as [-> | N]; [reflexivity |].
  destruct (NextPowerOf2_spec t ltac:(lia)) as (k & Hk & Ek & _).
  rewrite Ek. unfold detail.NextPowerOf2 at 1.
  replace (detail.PowerOf2 (2 ^ k)) with true; [reflexivity |].
  symmetry. apply PowerOf2_spec.
  - pose proof (Z.pow_pos_nonneg 2 k ltac:(lia) ltac:(lia)).
    assert (2 ^ k <= 2 ^ 30) by (apply Z.pow_le_mono_r; lia). lia.
  - right. exists k. split; [lia | reflexivity].
Qed.

Lemma PowerOf2_spec_witness :
  (detail.PowerOf2 64 = true <-> 64 = 0 \/ exists k, 0 <= k < 32 /\ 64 = 2 ^ k) /\
  (detail.PowerOf2 0 = true <-> 0 = 0 \/ exists k, 0 <= k < 32 /\ 0 = 2 ^ k).
Proof.
  split.
  - apply (PowerOf2_spec 64). lia.
  - apply (PowerOf2_spec 0). lia.
Defined.

Lemma BitCount_spec_witness :
  0 <= detail.BitCount 255 <= 32 /\
  255 < 2 ^ detail.BitCount 255 /\
  (0 < 255 -> 2 ^ (detail.BitCount 255 - 1) <= 255) /\
  detail.BitCount 255 = (if 255 =? 0 then 0 else Z.log2 255 + 1).
Proof. apply (BitCount_spec 255). lia. Defined.

Lemma NextPowerOf2_spec_witness :
  exists k,
    0 <= k <= 30 /\
    detail.NextPowerOf2 200 = 2 ^ k /\
    200 <= 2 ^ k < 2 * 200 /\
    (forall j, 0 <= j -> 200 <= 2 ^ j -> 2 ^ k <= 2 ^ j).
Proof. apply (NextPowerOf2_spec 200). lia. Defined.

Lemma NextPowerOf2_fixed_witness :
  (detail.NextPowerOf2 200 = 200 <-> detail.PowerOf2 200 = true) /\
  detail.NextPowerOf2 (detail.NextPowerOf2 200) = detail.NextPowerOf2 200.
Proof. apply (NextPowerOf2_fixed 200). lia. Defined.

(** ** [hfsm/machine.hpp]: the logger's method names *)

(** [methodName] gives the six methods six different names, none of them
    empty. *)
Theorem methodName_injective (a b : Method) :
  (LoggerInterface.methodName a = LoggerInterface.methodName b <-> a = b) /\
  LoggerInterface.methodName a <> EmptyString.
Proof.
  split; [split |].
  - destruct a, b; simpl; intros E; try reflexivity; discriminate E.
  - intros ->. reflexivity.
  - destruct a; discriminate.
Qed.

(** ** [hfsm/detail/machine_orthogonal.hpp]: the sizes of [_O] and [Sub] *)

Section EnumeratorFacts.

Variable S_ReverseDepth : Z.
Variable C_ReverseDepth : Sub -> Z.
Variable S_DeepWidth : Z.
Variable C_DeepWidth : Sub -> Z.
Variable S_ProngCount : Z.
Variable C_ProngCount : Sub -> Z.

Local Abbreviation RD := (ReverseDepth S_ReverseDepth C_ReverseDepth).
Local Abbreviation SRD := (Sub_ReverseDepth S_ReverseDepth C_ReverseDepth).

Lemma Sub_ReverseDepth_max s :
  (exists c, In c (Sub_children s) /\ SRD s = RD c) /\
  (forall c, In c (Sub_children s) -> RD c <= SRD s).
Proof.
  induction s as [i | i r (IHe & IHa)]; simpl.
  - split.
    + exists i. simpl. auto.
    + intros c [<- | []]. lia.
  - unfold detail.Max. destruct (Z.gtb_spec (RD i) (SRD r)) as [G | L].
    + split.
      * exists i. simpl. auto.
      * intros c [<- | Hc]; [lia |]. specialize (IHa c Hc). lia.
    + split.
      * destruct IHe as (c & Hc & E). exists c. simpl. auto.
      * intros c [<- | Hc]; [lia |]. apply IHa. assumption.
Qed.

(** In [_O::Sub] the [ReverseDepth] is the largest [ReverseDepth] among the
    sub-states, whatever their order; and an orthogonal region whose
    sub-states are below [2^32 - 1] is one deeper than the deepest of them,
    so strictly deeper than each. *)
Theorem ReverseDepth_deepest f h subs :
  (exists c, In c (Sub_children subs) /\ SRD subs = RD c) /\
  (forall c, In c (Sub_children subs) -> RD c <= SRD subs) /\
  (0 <= SRD subs < 2 ^ 32 - 1 ->
   RD (_O f h subs) = SRD subs + 1 /\
   forall c, In c (Sub_children subs) -> RD c < RD (_O f h subs)).
Proof.
  destruct (Sub_ReverseDepth_max subs) as (He & Ha).
  split; [exact He |]. split; [exact Ha |].
  intros Hr. change (RD (_O f h subs)) with (wrap32 (SRD subs + 1)).
  rewrite wrap32_small by lia. split; [reflexivity |].
  intros c Hc. specialize (Ha c Hc). lia.
Qed.

Lemma wrap32_idem z : wrap32 (wrap32 z) = wrap32 z.
Proof. unfold wrap32. apply Z.mod_mod. lia. Qed.

Lemma Sub_additive (E : Region -> Z) (SE : Sub -> Z) :
  (forall i, SE (Sub1 i) = E i) ->
  (forall i r, SE (SubN i r) = wrap32 (E i + SE r)) ->
  forall s, wrap32 (SE s) = wrap32 (fold_right Z.add 0 (map E (Sub_children s))).
Proof.
  intros H1 HN. induction s as [i | i r IH]; cbn [Sub_children map fold_right].
  - rewrite H1. f_equal. lia.
  - rewrite HN, wrap32_idem, <- wrap32_add_r, IH, wrap32_add_r. reflexivity.
Qed.

(** The additive sizes of an orthogonal region: [DeepWidth] and [ProngCount]
    are, modulo [2^32], the sums of those of the sub-states (the head adds
    nothing), while [StateCount] adds one for the head and [ForkCount] one
    for the region's own fork. *)
Theorem orthogonal_sizes_add f h subs :
  wrap32 (DeepWidth S_DeepWidth C_DeepWidth (_O f h subs))
  = wrap32 (fold_right Z.add 0
              (map (DeepWidth S_DeepWidth C_DeepWidth) (Sub_children subs))) /\
  wrap32 (ProngCount S_ProngCount C_ProngCount (_O f h subs))
  = wrap32 (fold_right Z.add 0
              (map (ProngCount S_ProngCount C_ProngCount) (Sub_children subs))) /\
  StateCount (_O f h subs)
  = wrap32 (1 + fold_right Z.add 0 (map StateCount (Sub_children subs))) /\
  ForkCount (_O f h subs)
  = wrap32 (fold_right Z.add 0 (map ForkCount (Sub_children subs)) + 1).
Proof.
  split; [| split; [| split]].
  - change (DeepWidth S_DeepWidth C_DeepWidth (_O f h subs))
      with (Sub_DeepWidth S_DeepWidth C_DeepWidth subs).
    apply Sub_additive; intros; reflexivity.
  - change (ProngCount S_ProngCount C_ProngCount (_O f h subs))
      with (Sub_ProngCount S_ProngCount C_ProngCount subs).
    apply Sub_additive; intros; reflexivity.
  - change (StateCount (_O f h subs)) with (O_StateCount (Sub_StateCount subs)).
    unfold O_StateCount, S_StateCount.
    rewrite <- wrap32_add_r.
    rewrite (Sub_additive StateCount Sub_StateCount) by (intros; reflexivity).
    rewrite wrap32_add_r. reflexivity.
  - change (ForkCount (_O f h subs)) with (O_ForkCount (Sub_ForkCount subs)).
    unfold O_ForkCount.
    rewrite <- wrap32_add_l.
    rewrite (Sub_additive ForkCount Sub_ForkCount) by (intros; reflexivity).
    rewrite wrap32_add_l. reflexivity.
Qed.

End EnumeratorFacts.

Lemma Sub_nth_children s : forall p TN,
  Sub_nth p TN s
  = if (TN <=? p) && (p <? TN + Sub_Width s)
    then nth_error (Sub_children s) (Z.to_nat (p - TN))
    else None.
Proof.
  induction s as [i | i r IH]; intros p TN; cbn [Sub_nth Sub_Width Sub_children].
  - destruct (Z.eqb_spec p TN) as [-> | N].
    + rewrite Z.leb_refl. destruct (Z.ltb_spec TN (TN + 1)); [| lia].
      rewrite Z.sub_diag. reflexivity.
    + destruct (Z.leb_spec TN p); [| reflexivity].
      destruct (Z.ltb_spec p (TN + 1)); [lia | reflexivity].
  - pose proof (Sub_Width_pos r) as W.
    destruct (Z.eqb_spec p TN) as [-> | N].
    + rewrite Z.leb_refl. destruct (Z.ltb_spec TN (TN + (1 + Sub_Width r))); [| lia].
      rewrite Z.sub_diag. reflexivity.
    + rewrite IH.
      destruct (Z.leb_spec (TN + 1) p) as [L1 | L1];
        destruct (Z.leb_spec TN p) as [L2 | L2]; try lia; cbn [andb];
        [| reflexivity].
      destruct (Z.ltb_spec p (TN + 1 + Sub_Width r)) as [U1 | U1];
        destruct (Z.ltb_spec p (TN + (1 + Sub_Width r))) as [U2 | U2]; try lia;
        [| reflexivity].
      replace (Z.to_nat (p - TN)) with (S (Z.to_nat (p - (TN + 1)))) by lia.
      reflexivity.
Qed.

(** The prong indices of [Sub<0, TS...>] are the positions 0 to [Width - 1]
    of the sub-states in declaration order: [Width] is their number, the
    sub-state of index [p] is the [p]-th one, and no other index has one. *)
Theorem prong_indices_are_positions (s : Sub) :
  Sub_Width s = Z.of_nat (length (Sub_children s)) /\
  1 <= Sub_Width s /\
  (forall p, 0 <= p < Sub_Width s ->
             Sub_nth p 0 s = nth_error (Sub_children s) (Z.to_nat p) /\
             Sub_nth p 0 s <> None) /\
  (forall p, p < 0 \/ Sub_Width s <= p -> Sub_nth p 0 s = None).
Proof.
  assert (W : Sub_Width s = Z.of_nat (length (Sub_children s))).
  { induction s as [i | i r IH]; cbn [Sub_Width Sub_children length]; lia. }
  pose proof (Sub_Width_pos s) as P.
  split; [exact W |]. split; [exact P |]. split.
  - intros p Hp. rewrite Sub_nth_children.
    destruct (Z.leb_spec 0 p); [| lia].
    destruct (Z.ltb_spec p (0 + Sub_Width s)); [| lia].
    simpl. rewrite Z.sub_0_r. split; [reflexivity |].
    apply nth_error_Some. lia.
  - intros p Hp. rewrite Sub_nth_children.
    destruct (Z.leb_spec 0 p); [| reflexivity].
    destruct (Z.ltb_spec p (0 + Sub_Width s)); [lia | reflexivity].
Qed.

(** ** [hfsm/machine.hpp]: what the build-time assertion gives *)

Lemma forks_below_states :
  (forall r, (composites r + orthogonals r < states r)%nat) /\
  (forall s, (Sub_composites s + Sub_orthogonals s < Sub_states s)%nat).
Proof. apply Region_mutind; simpl; intros; lia. Qed.

Lemma width_below_states s : Sub_Width s <= Z.of_nat (Sub_states s).
Proof.
  induction s as [i | i r IH]; cbn [Sub_Width Sub_states].
  - pose proof (proj1 states_pos i). lia.
  - pose proof (proj1 states_pos i). lia.
Qed.

(** A tree of fewer than [2^32] states has fewer forks than states and a
    root narrower than its state count; so once the assertion of [_R] has
    accepted it, every state index, fork index and prong index of the root
    is kept by a store into an [Index] and differs from [INVALID_INDEX]. *)
Theorem accepted_indices_fit (Apex : Region) :
  Z.of_nat (states Apex) < 2 ^ 32 ->
  StateCount Apex = Z.of_nat (states Apex) /\
  ForkCount Apex = Z.of_nat (composites Apex + orthogonals Apex) /\
  ForkCount Apex < StateCount Apex /\
  (forall subs, subStates Apex = Some subs -> Sub_Width subs < StateCount Apex) /\
  (R_static.static_assert_StateCount Apex = inl tt ->
   forall i, 0 <= i < StateCount Apex -> toIndex i = i /\ i <> INVALID_INDEX).
Proof.
  intros Hs.
  pose proof (proj1 forks_below_states Apex) as Hf.
  assert (SC : StateCount Apex = Z.of_nat (states Apex)).
  { rewrite (proj1 StateCount_states). apply wrap32_small. lia. }
  assert (FC : ForkCount Apex = Z.of_nat (composites Apex + orthogonals Apex)).
  { rewrite (proj1 ForkCount_regions). apply wrap32_small. lia. }
  split; [exact SC |]. split; [exact FC |]. split; [lia |]. split.
  - intros subs E. rewrite SC.
    destruct Apex as [h | f h s | f h s]; simpl in E; inversion E; subst;
      pose proof (width_below_states subs); simpl; lia.
  - unfold R_static.static_assert_StateCount, Index_max.
    destruct (Z.ltb_spec (StateCount Apex) 255); [| discriminate].
    intros _ i Hi. unfold toIndex, INVALID_INDEX, Index_max.
    rewrite Z.mod_small by lia. split; [reflexivity | lia].
Qed.

Lemma accepted_indices_fit_witness :
  StateCount Ex.TwoRegions = Z.of_nat (states Ex.TwoRegions) /\
  ForkCount Ex.TwoRegions
  = Z.of_nat (composites Ex.TwoRegions + orthogonals Ex.TwoRegions) /\
  ForkCount Ex.TwoRegions < StateCount Ex.TwoRegions /\
  (forall subs, subStates Ex.TwoRegions = Some subs ->
                Sub_Width subs < StateCount Ex.TwoRegions) /\
  (R_static.static_assert_StateCount Ex.TwoRegions = inl tt ->
   forall i, 0 <= i < StateCount Ex.TwoRegions ->
             toIndex i = i /\ i <> INVALID_INDEX).
Proof. apply (accepted_indices_fit Ex.TwoRegions). vm_compute. reflexivity. Defined.

(** ** [hfsm/detail/array.hpp]: the assertion of [StaticArray] *)

(** [StaticArray] accepts a capacity exactly up to 255 (and has no assertion
    at 0), while [_R] wants [StateCount] below 255: whenever the root's
    assertion holds so does that of [Prefixes], and the two differ at 255
    states only. *)
Theorem StaticArray_bound_is_looser (Apex : Region) :
  (forall CAPACITY, 0 <= CAPACITY ->
      (StaticArray.static_assert_CAPACITY CAPACITY = true <-> CAPACITY <= 255)) /\
  (R_static.static_assert_StateCount Apex = inl tt ->
   StaticArray.static_assert_CAPACITY (Prefixes_CAPACITY Apex) = true) /\
  (StaticArray.static_assert_CAPACITY (Prefixes_CAPACITY Apex) = true <->
   R_static.static_assert_StateCount Apex = inl tt \/ StateCount Apex = 255).
Proof.
  assert (A : forall c, 0 <= c ->
                        (StaticArray.static_assert_CAPACITY c = true <-> c <= 255)).
  { intros c Hc. unfold StaticArray.static_assert_CAPACITY, Index_max.
    rewrite orb_true_iff, Z.eqb_eq, Z.leb_le. lia. }
  pose proof (proj1 StateCount_range Apex) as R.
  assert (B : R_static.static_assert_StateCount Apex = inl tt <-> StateCount Apex < 255).
  { unfold R_static.static_assert_StateCount, Index_max.
    destruct (Z.ltb_spec (StateCount Apex) 255); split; intros H0;
      try reflexivity; try lia; try discriminate. }
  split; [exact A |]. unfold Prefixes_CAPACITY. split.
  - intros H. apply A; [lia |]. apply B in H. lia.
  - rewrite A by lia. rewrite B. lia.
Qed.

Section DepthFacts.

Variable S_ReverseDepth : Z.
Variable C_ReverseDepth : Sub -> Z.

Local Abbreviation RD := (ReverseDepth S_ReverseDepth C_ReverseDepth).

Lemma nested_ReverseDepth inner : forall n,
  0 <= RD inner ->
  RD inner + Z.of_nat n < 2 ^ 32 ->
  RD (nested n inner) = RD inner + Z.of_nat n.
Proof.
  induction n as [| n IH]; intros H0 Hn.
  - simpl. lia.
  - change (RD (nested (S n) inner)) with (wrap32 (RD (nested n inner) + 1)).
    rewrite IH by lia. rewrite wrap32_small by lia. lia.
Qed.

Lemma nested_states inner : forall n,
  states (nested n inner) = (n + states inner)%nat.
Proof. induction n as [| n IH]; simpl; [reflexivity | rewrite IH; reflexivity]. Qed.

(** The structure report's [Prefix], a [StaticArray] of
    [ReverseDepth * 2 + 2] characters, compiles exactly when [ReverseDepth]
    is at most 126; so a leaf inside 127 to 253 nested orthogonal regions is
    a tree the assertion of [_R] accepts and [Prefix] rejects. *)
Theorem Prefix_limits_depth :
  (forall Apex, 0 <= RD Apex < 2 ^ 30 ->
      (StaticArray.static_assert_CAPACITY
         (Prefix_CAPACITY S_ReverseDepth C_ReverseDepth Apex) = true
       <-> RD Apex <= 126)) /\
  (forall n h, 0 <= S_ReverseDepth < 2 ^ 29 -> (127 <= n <= 253)%nat ->
      R_static.static_assert_StateCount (nested n (_S h)) = inl tt /\
      StaticArray.static_assert_CAPACITY
        (Prefix_CAPACITY S_ReverseDepth C_ReverseDepth (nested n (_S h))) = false).
Proof.
  assert (A : forall Apex, 0 <= RD Apex < 2 ^ 30 ->
      (StaticArray.static_assert_CAPACITY
         (Prefix_CAPACITY S_ReverseDepth C_ReverseDepth Apex) = true
       <-> RD Apex <= 126)).
  { intros Apex Hr. unfold Prefix_CAPACITY, StaticArray.static_assert_CAPACITY, Index_max.
    rewrite (wrap32_small (RD Apex * 2)) by lia.
    rewrite wrap32_small by lia.
    rewrite orb_true_iff, Z.eqb_eq, Z.leb_le. lia. }
  split; [exact A |].
  intros n h Hs Hn.
  assert (D : RD (nested n (_S h)) = S_ReverseDepth + Z.of_nat n).
  { apply nested_ReverseDepth; simpl; lia. }
  split.
  - unfold R_static.static_assert_StateCount, Index_max.
    rewrite (proj1 StateCount_states), nested_states. simpl states.
    rewrite wrap32_small by lia.
    destruct (Z.ltb_spec (Z.of_nat (n + 1)) 255); [reflexivity | lia].
  - apply not_true_is_false. intros T. apply A in T; lia.
Qed.

End DepthFacts.

Lemma Prefix_limits_depth_witness :
  (StaticArray.static_assert_CAPACITY
     (Prefix_CAPACITY 0 (fun _ => 1) (nested 3 (_S 0%nat))) = true
   <-> ReverseDepth 0 (fun _ => 1) (nested 3 (_S 0%nat)) <= 126) /\
  R_static.static_assert_StateCount (nested 127 (_S 0%nat)) = inl tt /\
  StaticArray.static_assert_CAPACITY
    (Prefix_CAPACITY 0 (fun _ => 1) (nested 127 (_S 0%nat))) = false.
Proof.
  split.
  - apply (proj1 (Prefix_limits_depth 0 (fun _ => 1)) (nested 3 (_S 0%nat))).
    vm_compute. split; [discriminate | reflexivity].
  - apply (proj2 (Prefix_limits_depth 0 (fun _ => 1)) 127%nat 0%nat).
    + vm_compute. split; [discriminate | reflexivity].
    + lia.
Defined.

Lemma ReverseDepth_deepest_witness :
  ReverseDepth 0 (fun _ => 1) Ex.AndPair
  = Sub_ReverseDepth 0 (fun _ => 1) (SubN (_S Ex.A) (Sub1 (_S Ex.B))) + 1 /\
  forall c, In c (Sub_children (SubN (_S Ex.A) (Sub1 (_S Ex.B)))) ->
            ReverseDepth 0 (fun _ => 1) c < ReverseDepth 0 (fun _ => 1) Ex.AndPair.
Proof.
  apply (proj2 (proj2 (ReverseDepth_deepest 0 (fun _ => 1)
                         (Fork_ctor 0) Ex.R0 (SubN (_S Ex.A) (Sub1 (_S Ex.B)))))).
  vm_compute. split; [discriminate | reflexivity].
Defined.

Lemma prong_indices_are_positions_witness :
  (Sub_nth 1 0 (SubN (_S Ex.A) (Sub1 (_S Ex.B)))
   = nth_error (Sub_children (SubN (_S Ex.A) (Sub1 (_S Ex.B)))) (Z.to_nat 1) /\
   Sub_nth 1 0 (SubN (_S Ex.A) (Sub1 (_S Ex.B))) <> None) /\
  Sub_nth 2 0 (SubN (_S Ex.A) (Sub1 (_S Ex.B))) = None.
Proof.
  pose proof (prong_indices_are_positions (SubN (_S Ex.A) (Sub1 (_S Ex.B))))
    as (_ & _ & Hin & Hout).
  split.
  - apply (Hin 1). vm_compute. split; [discriminate | reflexivity].
  - apply (Hout 2). right. vm_compute. discriminate.
Defined.

Lemma StaticArray_bound_is_looser_witness :
  (StaticArray.static_assert_CAPACITY 255 = true <-> 255 <= 255) /\
  StaticArray.static_assert_CAPACITY (Prefixes_CAPACITY Ex.TwoRegions) = true.
Proof.
  pose proof (StaticArray_bound_is_looser Ex.TwoRegions) as (Ha & Hp & _).
  split.
  - apply (Ha 255). vm_compute. discriminate.
  - apply Hp. vm_compute. reflexivity.
Defined.

(** ** [hfsm/machine.hpp]: the request interface of the root *)

Lemma Transition_eta (c : Transition) :
  Transition.mk (Transition.type c) (Transition.stateType c) = c.
Proof. destruct c. reflexivity. Qed.

Lemma requestAll_room {TContext : Type} calls : forall (m : @_R TContext),
  View.count (_requests (env m)) + Z.of_nat (length calls)
  <= _capacity (_requests (env m)) ->
  requestAll calls m
  = Some (mkR (set_requests
                 (mkArrayView (_capacity (_requests (env m)))
                              (_items (_requests (env m)) ++ calls))
                 (env m))
              (_apex m)).
Proof.
  induction calls as [| c rest IH]; intros m H; cbn [requestAll].
  - rewrite app_nil_r. destruct m as [[c0 [cap items] l t] a]. reflexivity.
  - unfold request. rewrite append_room, Transition_eta
      by (cbn [length] in H; lia).
    rewrite IH.
    + simpl. rewrite <- app_assoc. reflexivity.
    + unfold View.count in *. simpl. rewrite length_app. simpl.
      cbn [length] in H. lia.
Qed.

(** A run of [changeTo<T>]/[resume<T>]/[schedule<T>] calls on the root that
    the queue has room for goes through: the queue is then the old one
    followed by one record per call, in call order, with its capacity, and
    the tree is untouched.  The same call on a [Control] leaves the same
    queue. *)
Theorem requestAll_fits {TContext : Type} (calls : list Transition) (m : @_R TContext) :
  View.count (_requests (env m)) + Z.of_nat (length calls)
  <= _capacity (_requests (env m)) ->
  requestAll calls m
  = Some (mkR (set_requests
                 (mkArrayView (_capacity (_requests (env m)))
                              (_items (_requests (env m)) ++ calls))
                 (env m))
              (_apex m)) /\
  (forall type T,
      option_map (fun m' => _requests (env m')) (request type T m)
      = Control_request type T (_requests (env m))).
Proof.
  intros Hb. split; [apply requestAll_room; assumption |].
  intros type T. unfold request, Control_request.
  destruct (View.append _ _); reflexivity.
Qed.

Lemma requestAll_fits_witness :
  requestAll [Transition.mk Transition.Schedule Ex.B2;
              Transition.mk Transition.Restart Ex.A2;
              Transition.mk Transition.Resume Ex.Q0] Ex.regionsLeft
  = Some (mkR (set_requests
                 (mkArrayView (_capacity (_requests (env Ex.regionsLeft)))
                    (_items (_requests (env Ex.regionsLeft))
                     ++ [Transition.mk Transition.Schedule Ex.B2;
                         Transition.mk Transition.Restart Ex.A2;
                         Transition.mk Transition.Resume Ex.Q0]))
                 (env Ex.regionsLeft))
              (_apex Ex.regionsLeft)).
Proof.
  apply (requestAll_fits _ Ex.regionsLeft).
  vm_compute. discriminate.
Defined.

(** ** [hfsm/machine.hpp]: a state that overrides nothing *)

(** A state that is [Base] ([_B<Bare>], every hook and callback empty) is
    transparent: each of its six methods records the call and changes
    neither the context nor the request queue. *)
Theorem Base_is_transparent {TContext TEvent : Type}
        (user : TypeInfo -> @UserState TContext TEvent) (T : TypeInfo)
        (e : @Env TContext) :
  user T = Base ->
  S_deepSubstitute user T e = Some (tt, emit (Recorded T LoggerInterface.Substitute) e) /\
  S_deepEnter user T e = Some (tt, emit (Recorded T LoggerInterface.Enter) e) /\
  S_deepUpdate user T e = Some (tt, emit (Recorded T LoggerInterface.Update) e) /\
  S_deepTransition user T e = Some (tt, emit (Recorded T LoggerInterface.Transition) e) /\
  (forall ev, S_deepReact user ev T e
              = Some (tt, emit (Recorded T LoggerInterface.React) e)) /\
  S_deepLeave user T e = Some (tt, emit (Recorded T LoggerInterface.Leave) e).
Proof.
  intros B.
  unfold S_deepSubstitute, S_deepEnter, S_deepUpdate, S_deepTransition,
    S_deepReact, S_deepLeave, runHooks, runPlain, runControlled, bind, modify.
  rewrite B. destruct e as [c [cap items] l t].
  repeat split; reflexivity.
Qed.

Lemma Base_is_transparent_witness :
  S_deepEnter Ex.idle Ex.A (env Ex.pairStarted)
  = Some (tt, emit (Recorded Ex.A LoggerInterface.Enter) (env Ex.pairStarted)).
Proof.
  apply (Base_is_transparent Ex.idle Ex.A (env Ex.pairStarted)). reflexivity.
Defined.
